(** * Edge of the code graph (src/lib/data/graph/Edge.cpp)

    A shallow embedding of [Edge]: the schema check [Edge::checkType], the two
    constructors and the destructor with their registration on the endpoint
    nodes, the component attachment guards, and the textual renderings. *)

From Stdlib Require Import ZArith Ascii String DecimalString.
From stdpp Require Import base option list gmap sets strings.

Local Open Scope Z_scope.

(** ** Enumerations *)

(** The enumerators of [Node::NodeType] that Edge.cpp names. *)
Inductive NodeType :=
  | NODE_UNDEFINED
  | NODE_UNDEFINED_VARIABLE
  | NODE_UNDEFINED_FUNCTION
  | NODE_UNDEFINED_TYPE
  | NODE_CLASS
  | NODE_STRUCT
  | NODE_ENUM
  | NODE_TYPEDEF
  | NODE_NAMESPACE
  | NODE_GLOBAL_VARIABLE
  | NODE_FIELD
  | NODE_FUNCTION
  | NODE_METHOD
  | NODE_TEMPLATE_PARAMETER_TYPE.

(** The enumerators of [Edge::EdgeType], in the order of the switch of
    [Edge::getTypeString]. *)
Inductive EdgeType :=
  | EDGE_MEMBER
  | EDGE_TYPE_OF
  | EDGE_RETURN_TYPE_OF
  | EDGE_PARAMETER_TYPE_OF
  | EDGE_TYPE_USAGE
  | EDGE_INHERITANCE
  | EDGE_OVERRIDE
  | EDGE_CALL
  | EDGE_USAGE
  | EDGE_TYPEDEF_OF
  | EDGE_TEMPLATE_PARAMETER_OF
  | EDGE_TEMPLATE_ARGUMENT_OF
  | EDGE_TEMPLATE_DEFAULT_ARGUMENT_OF
  | EDGE_TEMPLATE_SPECIALIZATION_OF
  | EDGE_AGGREGATION.

#[global] Instance NodeType_eq_dec : EqDecision NodeType.
Proof. solve_decision. Defined.

#[global] Instance EdgeType_eq_dec : EqDecision EdgeType.
Proof. solve_decision. Defined.

Definition all_NodeTypes : list NodeType :=
  [ NODE_UNDEFINED; NODE_UNDEFINED_VARIABLE; NODE_UNDEFINED_FUNCTION;
    NODE_UNDEFINED_TYPE; NODE_CLASS; NODE_STRUCT; NODE_ENUM; NODE_TYPEDEF;
    NODE_NAMESPACE; NODE_GLOBAL_VARIABLE; NODE_FIELD; NODE_FUNCTION;
    NODE_METHOD; NODE_TEMPLATE_PARAMETER_TYPE ].

Definition all_EdgeTypes : list EdgeType :=
  [ EDGE_MEMBER; EDGE_TYPE_OF; EDGE_RETURN_TYPE_OF; EDGE_PARAMETER_TYPE_OF;
    EDGE_TYPE_USAGE; EDGE_INHERITANCE; EDGE_OVERRIDE; EDGE_CALL; EDGE_USAGE;
    EDGE_TYPEDEF_OF; EDGE_TEMPLATE_PARAMETER_OF; EDGE_TEMPLATE_ARGUMENT_OF;
    EDGE_TEMPLATE_DEFAULT_ARGUMENT_OF; EDGE_TEMPLATE_SPECIALIZATION_OF;
    EDGE_AGGREGATION ].

(** ** Tokens and their components *)

(** Modelled from the spec: the visibility enumeration of
    TokenComponentAccess.h, which is not part of the sources at hand
    ("a visibility qualifier (e.g. public/protected/private)"). *)
Inductive AccessType := ACCESS_PUBLIC | ACCESS_PROTECTED | ACCESS_PRIVATE.

(** Modelled from the spec: [TokenComponentAccess::getAccessString], the
    display label of the stored visibility. *)
Definition getAccessString (a : AccessType) : string :=
  match a with
  | ACCESS_PUBLIC => "public"
  | ACCESS_PROTECTED => "protected"
  | ACCESS_PRIVATE => "private"
  end.

(** The two component classes an edge can carry.  A component is immutable
    once attached, so the shared pointer is modelled by its value. *)
Inductive TokenComponent :=
  | TokenComponentAccess (access : AccessType)
  | TokenComponentAggregation (count : N).

(** Addresses of heap objects ([Node*], [Edge*]). *)
Abbreviation ptr := positive.

(** Modelled from the spec: the [Token] base class (Token.h is not part of
    the sources at hand): an id and the attached components. *)
Record Token := mkToken {
  t_id : N;
  t_components : list TokenComponent
}.

(** Modelled from the spec: the fields of [Node] that [Edge] reads (Node.h is
    not part of the sources at hand): its kind, its two names and "the set of
    edges incident to it". *)
Record Node := mkNode {
  n_token : Token;
  n_type : NodeType;
  n_name : string;
  n_fullName : string;
  n_edges : gset positive
}.

(** The data members of [Edge]: the [Token] base, [m_type] as the integer the
    enum variable holds, and the two endpoint pointers. *)
Record Edge := mkEdge {
  e_token : Token;
  m_type : Z;
  m_from : ptr;
  m_to : ptr
}.

(** What the code does to its collaborators, in program order. *)
Inductive Event :=
  | EvAddEdge (node edge : ptr)
  | EvRemoveEdge (node edge : ptr)
  | EvLogError (msg : string).

(** The heap of nodes and edges, and the calls made so far. *)
Record Graph := mkGraph {
  nodes : gmap positive Node;
  edges : gmap positive Edge;
  trace : list Event
}.

(** ** A state and failure monad over the graph

    [None] stands for dereferencing a pointer to no live object. *)
Definition M (A : Type) : Type := Graph -> option (A * Graph).

Definition ret {A} (a : A) : M A := fun g => Some (a, g).

Definition bind {A B} (m : M A) (k : A -> M B) : M B :=
  fun g => match m g with
           | Some (a, g') => k a g'
           | None => None
           end.

Notation "'do' x <- m ; k" := (bind m (fun x => k))
  (at level 10, x name, m at level 100, k at level 200).
Notation "m ;; k" := (bind m (fun _ => k))
  (at level 100, k at level 200, right associativity).

Definition getNode (n : ptr) : M Node :=
  fun g => match nodes g !! n with Some nd => Some (nd, g) | None => None end.

Definition getEdge (e : ptr) : M Edge :=
  fun g => match edges g !! e with Some ed => Some (ed, g) | None => None end.

Definition setNode (n : ptr) (nd : Node) : M unit :=
  fun g => Some (tt, mkGraph (<[n := nd]> (nodes g)) (edges g) (trace g)).

Definition setEdge (e : ptr) (ed : Edge) : M unit :=
  fun g => Some (tt, mkGraph (nodes g) (<[e := ed]> (edges g)) (trace g)).

Definition freeEdge (e : ptr) : M unit :=
  fun g => Some (tt, mkGraph (nodes g) (delete e (edges g)) (trace g)).

Definition emit (ev : Event) : M unit :=
  fun g => Some (tt, mkGraph (nodes g) (edges g) (trace g ++ [ev])).

(** [LOG_ERROR(msg)]: one report to the logging sink. *)
Definition LOG_ERROR (msg : string) : M unit := emit (EvLogError msg).

(** The messages logged by a run of events. *)
Definition errors (evs : list Event) : list string :=
  omap (fun ev => match ev with EvLogError m => Some m | _ => None end) evs.

(** C++ [a || b] and [a && b] evaluate [b] only when [a] does not decide. *)
Definition orM (a b : M bool) : M bool :=
  do x <- a; if x then ret true else b.

Definition andM (a b : M bool) : M bool :=
  do x <- a; if x then b else ret false.

Definition notM (a : M bool) : M bool :=
  do x <- a; ret (negb x).

Infix "|||" := orM (at level 50, left associativity).
Infix "&&&" := andM (at level 40, left associativity).

(** [operator<<] of an unsigned number on a stream: its decimal digits. *)
Definition decimal (n : N) : string := NilZero.string_of_uint (N.to_uint n).

(** The double-quote character of the C++ literals. *)
Definition dquote : string := String (ascii_of_nat 34) EmptyString.

(** ** Token *)

Definition Token_getId (t : Token) : N := t_id t.

(** Modelled from the spec: [Token::getComponent<TokenComponentAccess>()],
    the attached component of that class, if any. *)
Fixpoint getComponentAccess (cs : list TokenComponent) : option AccessType :=
  match cs with
  | [] => None
  | TokenComponentAccess a :: _ => Some a
  | _ :: cs' => getComponentAccess cs'
  end.

(** Modelled from the spec: [Token::getComponent<TokenComponentAggregation>()]. *)
Fixpoint getComponentAggregation (cs : list TokenComponent) : option N :=
  match cs with
  | [] => None
  | TokenComponentAggregation n :: _ => Some n
  | _ :: cs' => getComponentAggregation cs'
  end.

(** Modelled from the spec: [Token::addComponent], which attaches the
    component to the token. *)
Definition Token_addComponent (t : Token) (c : TokenComponent) : Token :=
  mkToken (t_id t) (t_components t ++ [c]).

(** ** The schema, in the words of the specification *)

Definition complexType : list NodeType :=
  [NODE_UNDEFINED_TYPE; NODE_CLASS; NODE_STRUCT].
Definition typeLike : list NodeType :=
  [NODE_UNDEFINED; NODE_ENUM; NODE_TYPEDEF] ++ complexType.
Definition variableLike : list NodeType :=
  [NODE_UNDEFINED; NODE_UNDEFINED_VARIABLE; NODE_GLOBAL_VARIABLE; NODE_FIELD].
Definition functionLike : list NodeType :=
  [NODE_UNDEFINED_FUNCTION; NODE_FUNCTION; NODE_METHOD].

Definition is_in (t : NodeType) (l : list NodeType) : bool := bool_decide (t ∈ l).

(** Column "from must be" of the table. *)
Definition schema_from (k : EdgeType) : list NodeType :=
  match k with
  | EDGE_MEMBER => typeLike ++ [NODE_NAMESPACE]
  | EDGE_TYPE_OF => variableLike
  | EDGE_RETURN_TYPE_OF | EDGE_PARAMETER_TYPE_OF | EDGE_TYPE_USAGE => functionLike
  | EDGE_INHERITANCE => complexType
  | EDGE_OVERRIDE => [NODE_UNDEFINED_FUNCTION; NODE_METHOD]
  | EDGE_CALL => variableLike ++ functionLike
  | EDGE_USAGE => functionLike
  | EDGE_TYPEDEF_OF => [NODE_TYPEDEF]
  | EDGE_TEMPLATE_PARAMETER_OF => [NODE_TEMPLATE_PARAMETER_TYPE]
  | EDGE_TEMPLATE_ARGUMENT_OF | EDGE_TEMPLATE_DEFAULT_ARGUMENT_OF => typeLike
  | EDGE_TEMPLATE_SPECIALIZATION_OF => typeLike ++ functionLike
  | EDGE_AGGREGATION => typeLike ++ variableLike ++ functionLike
  end.

(** Column "to must be" of the table. *)
Definition schema_to (k : EdgeType) : list NodeType :=
  match k with
  | EDGE_MEMBER => typeLike ++ [NODE_NAMESPACE]
  | EDGE_TYPE_OF => typeLike
  | EDGE_RETURN_TYPE_OF | EDGE_PARAMETER_TYPE_OF | EDGE_TYPE_USAGE => typeLike
  | EDGE_INHERITANCE => complexType
  | EDGE_OVERRIDE => [NODE_UNDEFINED_FUNCTION; NODE_METHOD]
  | EDGE_CALL => functionLike
  | EDGE_USAGE => variableLike
  | EDGE_TYPEDEF_OF => typeLike
  | EDGE_TEMPLATE_PARAMETER_OF => typeLike ++ functionLike
  | EDGE_TEMPLATE_ARGUMENT_OF | EDGE_TEMPLATE_DEFAULT_ARGUMENT_OF => typeLike
  | EDGE_TEMPLATE_SPECIALIZATION_OF => typeLike ++ functionLike
  | EDGE_AGGREGATION => typeLike ++ variableLike ++ functionLike
  end.

(** Column "extra constraint" of the table: [true] when nothing rejects. *)
Definition schema_extra (k : EdgeType) (from to : NodeType) : bool :=
  match k with
  | EDGE_MEMBER =>
      negb (bool_decide (to = NODE_NAMESPACE) &&
            negb (is_in from [NODE_UNDEFINED; NODE_NAMESPACE])) &&
      negb (bool_decide (from = NODE_ENUM) && negb (bool_decide (to = NODE_FIELD)))
  | _ => true
  end.

(** A triple satisfies its row of the table as the table is written. *)
Definition schema_table (k : EdgeType) (from to : NodeType) : bool :=
  is_in from (schema_from k) && is_in to (schema_to k) && schema_extra k from to.

(** The row the code checks: as the table, but for [Member] the kind of [to]
    is constrained by the two rejections only. *)
Definition schema_checked (k : EdgeType) (from to : NodeType) : bool :=
  is_in from (schema_from k) &&
  (bool_decide (k = EDGE_MEMBER) || is_in to (schema_to k)) &&
  schema_extra k from to.

(** The human-readable label of each edge kind, as the specification lists
    them. *)
Definition EdgeType_label (k : EdgeType) : string :=
  match k with
  | EDGE_MEMBER => "child"
  | EDGE_TYPE_OF => "type_use"
  | EDGE_RETURN_TYPE_OF => "return_type"
  | EDGE_PARAMETER_TYPE_OF => "parameter_type"
  | EDGE_TYPE_USAGE => "type_usage"
  | EDGE_INHERITANCE => "inheritance"
  | EDGE_OVERRIDE => "override"
  | EDGE_CALL => "call"
  | EDGE_USAGE => "usage"
  | EDGE_TYPEDEF_OF => "typedef"
  | EDGE_TEMPLATE_PARAMETER_OF => "template parameter"
  | EDGE_TEMPLATE_ARGUMENT_OF => "template argument"
  | EDGE_TEMPLATE_DEFAULT_ARGUMENT_OF => "template default argument"
  | EDGE_TEMPLATE_SPECIALIZATION_OF => "template specialization"
  | EDGE_AGGREGATION => "aggregation"
  end.

(** The rendering of an edge as the specification words it: the bracketed id,
    the label, the two quoted names, then the access label and the
    aggregation count when the components are attached. *)
Definition rendering (id : N) (label fromName toName : string)
    (access : option AccessType) (aggregation : option N) : string :=
  "[" +:+ decimal id +:+ "] " +:+ label +:+ ": "
  +:+ dquote +:+ fromName +:+ dquote +:+ " -> " +:+ dquote +:+ toName +:+ dquote
  +:+ match access with
      | Some a => " " +:+ getAccessString a
      | None => EmptyString
      end
  +:+ match aggregation with
      | Some n => " " +:+ decimal n
      | None => EmptyString
      end.

(** ** Enumerator values to run the model with

    One assignment of distinct flags and labels, for evaluating the model on
    concrete graphs.  The theorems hold for every such assignment. *)

Definition example_bit (t : NodeType) : N :=
  match t with
  | NODE_UNDEFINED => 0
  | NODE_UNDEFINED_VARIABLE => 1
  | NODE_UNDEFINED_FUNCTION => 2
  | NODE_UNDEFINED_TYPE => 3
  | NODE_CLASS => 4
  | NODE_STRUCT => 5
  | NODE_ENUM => 6
  | NODE_TYPEDEF => 7
  | NODE_NAMESPACE => 8
  | NODE_GLOBAL_VARIABLE => 9
  | NODE_FIELD => 10
  | NODE_FUNCTION => 11
  | NODE_METHOD => 12
  | NODE_TEMPLATE_PARAMETER_TYPE => 13
  end%N.

Definition example_value (k : EdgeType) : Z :=
  match k with
  | EDGE_MEMBER => 0x1
  | EDGE_TYPE_OF => 0x2
  | EDGE_RETURN_TYPE_OF => 0x4
  | EDGE_PARAMETER_TYPE_OF => 0x8
  | EDGE_TYPE_USAGE => 0x10
  | EDGE_INHERITANCE => 0x20
  | EDGE_OVERRIDE => 0x40
  | EDGE_CALL => 0x80
  | EDGE_USAGE => 0x100
  | EDGE_TYPEDEF_OF => 0x200
  | EDGE_TEMPLATE_PARAMETER_OF => 0x400
  | EDGE_TEMPLATE_ARGUMENT_OF => 0x800
  | EDGE_TEMPLATE_DEFAULT_ARGUMENT_OF => 0x1000
  | EDGE_TEMPLATE_SPECIALIZATION_OF => 0x2000
  | EDGE_AGGREGATION => 0x4000
  end.

Definition example_label (t : NodeType) : string :=
  match t with
  | NODE_UNDEFINED => "undefined"
  | NODE_UNDEFINED_VARIABLE => "undefined_variable"
  | NODE_UNDEFINED_FUNCTION => "undefined_function"
  | NODE_UNDEFINED_TYPE => "undefined_type"
  | NODE_CLASS => "class"
  | NODE_STRUCT => "struct"
  | NODE_ENUM => "enum"
  | NODE_TYPEDEF => "typedef"
  | NODE_NAMESPACE => "namespace"
  | NODE_GLOBAL_VARIABLE => "global_variable"
  | NODE_FIELD => "field"
  | NODE_FUNCTION => "function"
  | NODE_METHOD => "method"
  | NODE_TEMPLATE_PARAMETER_TYPE => "template_parameter_type"
  end.

(** A small graph: class [A] with field [A::b] and method [A::m], a
    namespace, and plain copies of [A] and [A::b] under other addresses.
    [incident] is the incidence set of [A] and of [A::b]. *)
Definition example_node (id : N) (t : NodeType) (name : string)
    (incident : gset positive) : Node :=
  mkNode (mkToken id []) t name name incident.

Definition example_nodes (incident : gset positive) : gmap positive Node :=
  <[1%positive := example_node 1 NODE_CLASS "A" incident]>
    (<[2%positive := example_node 2 NODE_FIELD "A::b" incident]>
       (<[3%positive := example_node 3 NODE_METHOD "A::m" ∅]>
          (<[4%positive := example_node 4 NODE_NAMESPACE "ns" ∅]>
             (<[5%positive := example_node 1 NODE_CLASS "A" ∅]>
                (<[6%positive := example_node 2 NODE_FIELD "A::b" ∅]> ∅))))).

(** The graph before any edge is made. *)
Definition example_start : Graph := mkGraph (example_nodes ∅) ∅ [].

(** The graph with the single edge [e] from [A] to [A::b] at address 10. *)
Definition example_graph_of (e : Edge) : Graph :=
  mkGraph (example_nodes {[ 10%positive ]}) {[ 10%positive := e ]} [].

Definition example_member : Edge :=
  mkEdge (mkToken 7 []) (example_value EDGE_MEMBER) 1 2.

Definition example_member_public : Edge :=
  mkEdge (mkToken 7 [TokenComponentAccess ACCESS_PUBLIC]) (example_value EDGE_MEMBER) 1 2.

Definition example_aggregation : Edge :=
  mkEdge (mkToken 8 []) (example_value EDGE_AGGREGATION) 1 2.

Definition example_graph : Graph := example_graph_of example_member.

Section EdgeModel.

(** Node.h and Edge.h are not part of the sources at hand, so the values of
    their enumerators are parameters of the development: the bit each node
    kind occupies, the integer of each edge kind, and the label
    [Node::getTypeString] prints for a node kind. *)
Variable NodeType_bit : NodeType -> N.
Variable EdgeType_value : EdgeType -> Z.
Variable Node_getTypeString : NodeType -> string.

(** Modelled from the spec: the node kinds are bit flags ("bit-flag sets so
    multiple categories can be tested with one mask"). *)
Definition NodeType_value (t : NodeType) : Z :=
  Z.shiftl 1 (Z.of_N (NodeType_bit t)).

(** The bit flags are pairwise different, and so are the case labels of a
    switch over [EdgeType]. *)
Definition distinct_flags : Prop :=
  forall a b, NodeType_bit a = NodeType_bit b -> a = b.

Definition distinct_labels : Prop :=
  forall a b, EdgeType_value a = EdgeType_value b -> a = b.

(** The case of a [switch] over [EdgeType] that a value selects: the
    enumerator equal to it, or none. *)
Definition EdgeType_of_value (v : Z) : option EdgeType :=
  List.find (fun k => EdgeType_value k =? v) all_EdgeTypes.

(** *** Node *)

(** Modelled from the spec: [Node::isType], "whether the node's kind
    intersects the given category mask", written as [Edge::isType] is. *)
Definition Node_isType (nd : Node) (mask : Z) : bool :=
  Z.land (NodeType_value (n_type nd)) mask >? 0.

Definition Node_getId (nd : Node) : N := Token_getId (n_token nd).

(** The node with [e] put into, or taken out of, its incidence set. *)
Definition Node_register (e : ptr) (nd : Node) : Node :=
  mkNode (n_token nd) (n_type nd) (n_name nd) (n_fullName nd) (n_edges nd ∪ {[ e ]}).

Definition Node_unregister (e : ptr) (nd : Node) : Node :=
  mkNode (n_token nd) (n_type nd) (n_name nd) (n_fullName nd) (n_edges nd ∖ {[ e ]}).

(** Modelled from the spec: [Node::addEdge] "mutates the incidence set". *)
Definition Node_addEdge (n e : ptr) : M unit :=
  emit (EvAddEdge n e);;
  do nd <- getNode n;
  setNode n (Node_register e nd).

(** Modelled from the spec: [Node::removeEdge] "mutates the incidence set". *)
Definition Node_removeEdge (n e : ptr) : M unit :=
  emit (EvRemoveEdge n e);;
  do nd <- getNode n;
  setNode n (Node_unregister e nd).

(** *** Edge: accessors *)

Definition getType (this : ptr) : M Z :=
  do e <- getEdge this; ret (m_type e).

Definition isType (this : ptr) (mask : Z) : M bool :=
  do e <- getEdge this; ret (Z.land (m_type e) mask >? 0).

Definition getFrom (this : ptr) : M ptr :=
  do e <- getEdge this; ret (m_from e).

Definition getTo (this : ptr) : M ptr :=
  do e <- getEdge this; ret (m_to e).

Definition isNode (this : ptr) : M bool := ret false.

Definition isEdge (this : ptr) : M bool := ret true.

(** [m_from->isType(mask)] and [m_to->isType(mask)]. *)
Definition from_isType (this : ptr) (mask : Z) : M bool :=
  do e <- getEdge this; do nd <- getNode (m_from e); ret (Node_isType nd mask).

Definition to_isType (this : ptr) (mask : Z) : M bool :=
  do e <- getEdge this; do nd <- getNode (m_to e); ret (Node_isType nd mask).

(** *** Edge: labels *)

Definition getTypeString_of (type : Z) : string :=
  match EdgeType_of_value type with
  | Some EDGE_MEMBER => "child"
  | Some EDGE_TYPE_OF => "type_use"
  | Some EDGE_RETURN_TYPE_OF => "return_type"
  | Some EDGE_PARAMETER_TYPE_OF => "parameter_type"
  | Some EDGE_TYPE_USAGE => "type_usage"
  | Some EDGE_INHERITANCE => "inheritance"
  | Some EDGE_OVERRIDE => "override"
  | Some EDGE_CALL => "call"
  | Some EDGE_USAGE => "usage"
  | Some EDGE_TYPEDEF_OF => "typedef"
  | Some EDGE_TEMPLATE_PARAMETER_OF => "template parameter"
  | Some EDGE_TEMPLATE_ARGUMENT_OF => "template argument"
  | Some EDGE_TEMPLATE_DEFAULT_ARGUMENT_OF => "template default argument"
  | Some EDGE_TEMPLATE_SPECIALIZATION_OF => "template specialization"
  | Some EDGE_AGGREGATION => "aggregation"
  | None => EmptyString
  end.

Definition getTypeString (this : ptr) : M string :=
  do e <- getEdge this; ret (getTypeString_of (m_type e)).

Definition getName (this : ptr) : M string :=
  do ts <- getTypeString this;
  do f <- getFrom this;
  do nf <- getNode f;
  do t <- getTo this;
  do nt <- getNode t;
  ret (ts +:+ ":" +:+ n_fullName nf +:+ "->" +:+ n_fullName nt).

Definition getAsString (this : ptr) : M string :=
  do e <- getEdge this;
  do ts <- getTypeString this;
  do nf <- getNode (m_from e);
  do nt <- getNode (m_to e);
  let str := "[" +:+ decimal (Token_getId (e_token e)) +:+ "] " +:+ ts +:+ ": "
             +:+ dquote +:+ n_name nf +:+ (dquote +:+ " -> " +:+ dquote +:+ n_name nt)
             +:+ dquote in
  let str :=
    match getComponentAccess (t_components (e_token e)) with
    | Some access => str +:+ " " +:+ getAccessString access
    | None => str
    end in
  let str :=
    match getComponentAggregation (t_components (e_token e)) with
    | Some count => str +:+ " " +:+ decimal count
    | None => str
    end in
  ret str.

(** *** Edge: the schema check *)

Local Notation "# t" := (NodeType_value t) (at level 9, format "# t").
Local Infix "|:" := Z.lor (at level 40, left associativity).

Definition complexTypeMask : Z :=
  #NODE_UNDEFINED_TYPE |: #NODE_CLASS |: #NODE_STRUCT.
Definition typeMask : Z :=
  #NODE_UNDEFINED |: #NODE_ENUM |: #NODE_TYPEDEF |: complexTypeMask.
Definition variableMask : Z :=
  #NODE_UNDEFINED |: #NODE_UNDEFINED_VARIABLE |: #NODE_GLOBAL_VARIABLE |: #NODE_FIELD.
Definition functionMask : Z :=
  #NODE_UNDEFINED_FUNCTION |: #NODE_FUNCTION |: #NODE_METHOD.

(** The switch of [checkType]: [true] when a case returns true, [false]
    when control leaves the switch, by [break] or because no case label
    equals [m_type]. *)
Definition checkType_switch (this : ptr) : M bool :=
  let from := from_isType this in
  let to := to_isType this in
  do e <- getEdge this;
  match EdgeType_of_value (m_type e) with
  | Some EDGE_MEMBER =>
      notM (notM (from (typeMask |: #NODE_NAMESPACE)) |||
            (notM (from (#NODE_UNDEFINED |: #NODE_NAMESPACE)) &&& to #NODE_NAMESPACE) |||
            (from #NODE_ENUM &&& notM (to #NODE_FIELD)))
  | Some EDGE_TYPE_OF =>
      notM (notM (from variableMask) ||| notM (to typeMask))
  | Some EDGE_RETURN_TYPE_OF
  | Some EDGE_PARAMETER_TYPE_OF
  | Some EDGE_TYPE_USAGE =>
      notM (notM (from functionMask) ||| notM (to typeMask))
  | Some EDGE_INHERITANCE =>
      notM (notM (from complexTypeMask) ||| notM (to complexTypeMask))
  | Some EDGE_OVERRIDE =>
      notM (notM (from (#NODE_UNDEFINED_FUNCTION |: #NODE_METHOD)) |||
            notM (to (#NODE_UNDEFINED_FUNCTION |: #NODE_METHOD)))
  | Some EDGE_CALL =>
      notM (notM (from (variableMask |: functionMask)) ||| notM (to functionMask))
  | Some EDGE_USAGE =>
      notM (notM (from functionMask) ||| notM (to variableMask))
  | Some EDGE_TYPEDEF_OF =>
      notM (notM (from #NODE_TYPEDEF) ||| notM (to typeMask))
  | Some EDGE_TEMPLATE_PARAMETER_OF =>
      notM (notM (from #NODE_TEMPLATE_PARAMETER_TYPE) |||
            notM (to (typeMask |: functionMask)))
  | Some EDGE_TEMPLATE_ARGUMENT_OF
  | Some EDGE_TEMPLATE_DEFAULT_ARGUMENT_OF =>
      notM (notM (from typeMask) ||| notM (to typeMask))
  | Some EDGE_TEMPLATE_SPECIALIZATION_OF =>
      notM (notM (from (typeMask |: functionMask)) |||
            notM (to (typeMask |: functionMask)))
  | Some EDGE_AGGREGATION =>
      notM (notM (from (typeMask |: variableMask |: functionMask)) |||
            notM (to (typeMask |: variableMask |: functionMask)))
  | None => ret false
  end.

Definition checkType (this : ptr) : M bool :=
  do returned <- checkType_switch this;
  if returned then ret true
  else
    do ts <- getTypeString this;
    do e <- getEdge this;
    do nf <- getNode (m_from e);
    do nt <- getNode (m_to e);
    LOG_ERROR ("Edge " +:+ ts +:+ " can't go from Node "
               +:+ Node_getTypeString (n_type nf) +:+ " to Node "
               +:+ Node_getTypeString (n_type nt));;
    ret false.

(** *** Edge: construction and destruction *)

(** [new Edge]: the storage of a new object is at an address that holds no
    live edge. *)
Definition allocEdge (this : ptr) (ed : Edge) : M unit :=
  fun g => match edges g !! this with
           | None => setEdge this ed g
           | Some _ => None
           end.

(** [Edge::Edge(EdgeType type, Node* from, Node* to)], constructing at
    [this]; [id] is the id the default constructor of [Token] gives the
    new token. *)
Definition Edge_new (this : ptr) (id : N) (type : Z) (from to : ptr) : M unit :=
  allocEdge this (mkEdge (mkToken id []) type from to);;
  Node_addEdge from this;;
  Node_addEdge to this;;
  checkType this;;
  ret tt.

(** [Edge::Edge(const Edge& other, Node* from, Node* to)].  Modelled from
    the spec: [Token(other)] copies the token with its components. *)
Definition Edge_copy (this other : ptr) (from to : ptr) : M unit :=
  do o <- getEdge other;
  allocEdge this (mkEdge (e_token o) (m_type o) from to);;
  Node_addEdge from this;;
  Node_addEdge to this;;
  do c <- (ret (bool_decide (from = m_from o)) |||
           ret (bool_decide (to = m_to o)) |||
           (do a <- getNode from; do b <- getNode (m_from o);
            ret (negb (Node_getId a =? Node_getId b)%N)) |||
           (do a <- getNode to; do b <- getNode (m_to o);
            ret (negb (Node_getId a =? Node_getId b)%N)));
  (if c then LOG_ERROR "Nodes are not plain copies." else ret tt);;
  checkType this;;
  ret tt.

(** [Edge::~Edge()], followed by the release of the storage. *)
Definition Edge_delete (this : ptr) : M unit :=
  do e <- getEdge this;
  Node_removeEdge (m_from e) this;;
  Node_removeEdge (m_to e) this;;
  freeEdge this.

(** *** Edge: components *)

Definition addComponent (this : ptr) (c : TokenComponent) : M unit :=
  do e <- getEdge this;
  setEdge this (mkEdge (Token_addComponent (e_token e) c) (m_type e) (m_from e) (m_to e)).

Local Notation "! k" := (EdgeType_value k) (at level 9, format "! k").

Definition addComponentAggregation (this : ptr) (count : N) : M unit :=
  do e <- getEdge this;
  match getComponentAggregation (t_components (e_token e)) with
  | Some _ => LOG_ERROR "TokenComponentAggregation has been set before!"
  | None =>
      if negb (m_type e =? !EDGE_AGGREGATION) then
        do ts <- getTypeString this;
        LOG_ERROR ("TokenComponentAggregation can't be set on edge of type: " +:+ ts)
      else
        addComponent this (TokenComponentAggregation count)
  end.

Definition addComponentAccess (this : ptr) (access : AccessType) : M unit :=
  do e <- getEdge this;
  match getComponentAccess (t_components (e_token e)) with
  | Some _ => LOG_ERROR "TokenComponentAccess has been set before!"
  | None =>
      if negb (m_type e =? !EDGE_MEMBER) && negb (m_type e =? !EDGE_INHERITANCE) then
        do ts <- getTypeString this;
        LOG_ERROR ("TokenComponentAccess can't be set on edge of type: " +:+ ts)
      else
        addComponent this (TokenComponentAccess access)
  end.


(** ** Notions used by the statements *)

(** [m] returns [a] and leaves the graph as it is. *)
Definition reads {A} (m : M A) (g : Graph) (a : A) : Prop := m g = Some (a, g).

(** How often the enumeration of an incidence set lists the edge [e]. *)
Definition occurrences (e : ptr) (s : gset positive) : nat :=
  length (filter (fun x => x = e) (elements s)).

(** The member functions of [Edge] other than its constructors and its
    destructor. *)
Inductive EdgeMethod :=
  | Call_getType
  | Call_isType (mask : Z)
  | Call_getFrom
  | Call_getTo
  | Call_getName
  | Call_isNode
  | Call_isEdge
  | Call_addComponentAggregation (count : N)
  | Call_addComponentAccess (access : AccessType)
  | Call_getTypeString
  | Call_getAsString
  | Call_checkType.

(** A call of a member function on the edge at [this], its result dropped. *)
Definition call (m : EdgeMethod) (this : ptr) : M unit :=
  match m with
  | Call_getType => getType this;; ret tt
  | Call_isType mask => isType this mask;; ret tt
  | Call_getFrom => getFrom this;; ret tt
  | Call_getTo => getTo this;; ret tt
  | Call_getName => getName this;; ret tt
  | Call_isNode => isNode this;; ret tt
  | Call_isEdge => isEdge this;; ret tt
  | Call_addComponentAggregation count => addComponentAggregation this count
  | Call_addComponentAccess access => addComponentAccess this access
  | Call_getTypeString => getTypeString this;; ret tt
  | Call_getAsString => getAsString this;; ret tt
  | Call_checkType => checkType this;; ret tt
  end.

(** What a producer can do with edges. *)
Inductive EdgeOp :=
  | OpNew (this : ptr) (id : N) (type : Z) (from to : ptr)
  | OpCopy (this other from to : ptr)
  | OpDelete (this : ptr)
  | OpCall (m : EdgeMethod) (this : ptr).

Definition exec (op : EdgeOp) : M unit :=
  match op with
  | OpNew this id type from to => Edge_new this id type from to
  | OpCopy this other from to => Edge_copy this other from to
  | OpDelete this => Edge_delete this
  | OpCall m this => call m this
  end.

(** The graphs a producer can build: it starts with nodes and no edge, and
    every edge comes from a constructor. *)
Inductive reachable : Graph -> Prop :=
  | reachable_init ns tr : reachable (mkGraph ns ∅ tr)
  | reachable_step g op g' :
      reachable g -> exec op g = Some (tt, g') -> reachable g'.

Definition hasAccess (e : Edge) : bool :=
  bool_decide (is_Some (getComponentAccess (t_components (e_token e)))).

Definition hasAggregation (e : Edge) : bool :=
  bool_decide (is_Some (getComponentAggregation (t_components (e_token e)))).

(** Each attached component sits on an edge of a kind that accepts it. *)
Definition components_fit (e : Edge) : Prop :=
  (hasAccess e = true -> m_type e = !EDGE_MEMBER \/ m_type e = !EDGE_INHERITANCE) /\
  (hasAggregation e = true -> m_type e = !EDGE_AGGREGATION).

(** [m] never changes the component [f] of the graph. *)
Definition preserves {A B} (f : Graph -> B) (m : M A) : Prop :=
  forall g a g', m g = Some (a, g') -> f g' = f g.

(** The report of [checkType] on an edge of type [type] between nodes of
    kinds [from] and [to]. *)
Definition checkType_message (type : Z) (from to : NodeType) : string :=
  "Edge " +:+ getTypeString_of type +:+ " can't go from Node "
  +:+ Node_getTypeString from +:+ " to Node " +:+ Node_getTypeString to.

(** The node map once the edge [this] is registered on [from], then on [to]. *)
Definition registered (this from to : ptr) (ns : gmap positive Node) : gmap positive Node :=
  alter (Node_register this) to (alter (Node_register this) from ns).

Definition unregistered (this from to : ptr) (ns : gmap positive Node) : gmap positive Node :=
  alter (Node_unregister this) to (alter (Node_unregister this) from ns).

(** The condition under which the copy constructor reports. *)
Definition not_plain_copies (o : Edge) (from to : ptr) (nf nt onf ont : Node) : bool :=
  bool_decide (from = m_from o) || bool_decide (to = m_to o) ||
  negb (Node_getId nf =? Node_getId onf)%N || negb (Node_getId nt =? Node_getId ont)%N.

(** ** Notions for the properties beyond the schema *)

(** What [checkType] returns on an edge whose [m_type] holds [type], between
    nodes of kinds [from] and [to]: the row of the selected case, and false
    when no case label equals [type]. *)
Definition checkType_result (type : Z) (from to : NodeType) : bool :=
  match EdgeType_of_value type with
  | Some k => schema_checked k from to
  | None => false
  end.

(** The edge [e] after [addComponent(c)]. *)
Definition attached (e : Edge) (c : TokenComponent) : Edge :=
  mkEdge (Token_addComponent (e_token e) c) (m_type e) (m_from e) (m_to e).

(** The guards of [addComponentAccess] and [addComponentAggregation] let the
    component [c] through on the edge [e]. *)
Definition attachable (e : Edge) (c : TokenComponent) : Prop :=
  match c with
  | TokenComponentAccess _ =>
      getComponentAccess (t_components (e_token e)) = None /\
      (m_type e = !EDGE_MEMBER \/ m_type e = !EDGE_INHERITANCE)
  | TokenComponentAggregation _ =>
      getComponentAggregation (t_components (e_token e)) = None /\
      m_type e = !EDGE_AGGREGATION
  end.

Definition isAccess (c : TokenComponent) : bool :=
  match c with TokenComponentAccess _ => true | TokenComponentAggregation _ => false end.

Definition isAggregation (c : TokenComponent) : bool :=
  match c with TokenComponentAggregation _ => true | TokenComponentAccess _ => false end.

(** How many components of a class the list holds. *)
Definition count_components (is_class : TokenComponent -> bool)
    (cs : list TokenComponent) : nat :=
  length (List.filter is_class cs).

(** Every live edge is listed by both of its endpoints, which are live. *)
Definition edges_registered (g : Graph) : Prop :=
  forall p e, edges g !! p = Some e ->
    exists nf nt,
      nodes g !! m_from e = Some nf /\ p ∈ n_edges nf /\
      nodes g !! m_to e = Some nt /\ p ∈ n_edges nt.

(** Every entry of an incidence set is a live edge with that node as an
    endpoint. *)
Definition incidence_live (g : Graph) : Prop :=
  forall n nd p, nodes g !! n = Some nd -> p ∈ n_edges nd ->
    exists e, edges g !! p = Some e /\ (m_from e = n \/ m_to e = n).

Definition consistent (g : Graph) : Prop :=
  edges_registered g /\ incidence_live g.

(** Further edges on the example graph: an edge whose [m_type] holds 3, the
    value of no enumerator under [example_value], and a member edge from the
    namespace to the class. *)
Definition example_unknown : Edge := mkEdge (mkToken 9 []) 3 1 2.

Definition example_namespace_member : Edge :=
  mkEdge (mkToken 9 []) (example_value EDGE_MEMBER) 4 1.

(** A template parameter [T] of the class [A]. *)
Definition example_template_graph : Graph :=
  mkGraph
    (<[1%positive := example_node 1 NODE_TEMPLATE_PARAMETER_TYPE "T" {[ 10%positive ]}]>
       (<[2%positive := example_node 2 NODE_CLASS "A" {[ 10%positive ]}]> ∅))
    {[ 10%positive := mkEdge (mkToken 7 []) (example_value EDGE_TEMPLATE_PARAMETER_OF) 1 2 ]}
    [].

(** ** Facts about the encodings *)

Hypothesis flags_distinct : distinct_flags.
Hypothesis labels_distinct : distinct_labels.

Lemma land_flag (i m : Z) :
  0 <= i -> Z.land (Z.shiftl 1 i) m = if Z.testbit m i then Z.shiftl 1 i else 0.
Proof.
  intros Hi. rewrite Z.shiftl_1_l. apply Z.bits_inj'. intros n Hn.
  rewrite Z.land_spec, Z.pow2_bits_eqb by assumption.
  destruct (Z.eqb_spec i n) as [->|Hne].
  - destruct (Z.testbit m n); simpl.
    + rewrite Z.pow2_bits_eqb by assumption. now rewrite Z.eqb_refl.
    + now rewrite Z.bits_0.
  - simpl. destruct (Z.testbit m i).
    + rewrite Z.pow2_bits_eqb by assumption. symmetry. now apply Z.eqb_neq.
    + now rewrite Z.bits_0.
Qed.

Lemma Node_isType_testbit nd mask :
  Node_isType nd mask = Z.testbit mask (Z.of_N (NodeType_bit (n_type nd))).
Proof.
  unfold Node_isType, NodeType_value.
  rewrite land_flag by apply N2Z.is_nonneg.
  destruct (Z.testbit mask _); [|reflexivity].
  rewrite Z.shiftl_1_l. apply Z.gtb_lt, Z.pow_pos_nonneg; [lia | apply N2Z.is_nonneg].
Qed.

Lemma Node_isType_lor nd a b :
  Node_isType nd (Z.lor a b) = Node_isType nd a || Node_isType nd b.
Proof. rewrite !Node_isType_testbit. apply Z.lor_spec. Qed.

Lemma Node_isType_flag nd t :
  Node_isType nd #t = bool_decide (n_type nd = t).
Proof.
  rewrite Node_isType_testbit. unfold NodeType_value.
  rewrite Z.shiftl_1_l, Z.pow2_bits_eqb by apply N2Z.is_nonneg.
  case_bool_decide as H.
  - rewrite H. apply Z.eqb_refl.
  - apply Z.eqb_neq. intros E. apply H. symmetry.
    apply flags_distinct. now apply N2Z.inj.
Qed.

Lemma EdgeType_value_eqb a b : (!a =? !b) = bool_decide (a = b).
Proof.
  case_bool_decide as H.
  - rewrite H. apply Z.eqb_refl.
  - apply Z.eqb_neq. intros E. now apply labels_distinct in E.
Qed.

Lemma EdgeType_of_value_enum k : EdgeType_of_value !k = Some k.
Proof.
  unfold EdgeType_of_value, all_EdgeTypes. cbn [List.find].
  rewrite !EdgeType_value_eqb. now destruct k.
Qed.

Lemma EdgeType_of_value_Some v k : EdgeType_of_value v = Some k -> v = !k.
Proof.
  unfold EdgeType_of_value. intros H.
  apply find_some in H as [_ H]. symmetry. now apply Z.eqb_eq.
Qed.

Lemma EdgeType_of_value_None v :
  (forall k, v <> !k) -> EdgeType_of_value v = None.
Proof.
  intros H. destruct (EdgeType_of_value v) as [k|] eqn:E; [|reflexivity].
  apply EdgeType_of_value_Some in E. now apply H in E.
Qed.

(** ** Running the monad *)

Lemma reads_ret {A} (a : A) g : reads (ret a) g a.
Proof. reflexivity. Qed.

Lemma reads_bind {A B} (m : M A) (k : A -> M B) g a b :
  reads m g a -> reads (k a) g b -> reads (bind m k) g b.
Proof. unfold reads, bind. now intros ->. Qed.

Lemma bind_run {A B} (m : M A) (k : A -> M B) g a g' :
  m g = Some (a, g') -> bind m k g = k a g'.
Proof. unfold bind. now intros ->. Qed.

Lemma reads_notM a g x : reads a g x -> reads (notM a) g (negb x).
Proof. intros H. eapply reads_bind; [exact H | apply reads_ret]. Qed.

Lemma reads_orM a b g x y :
  reads a g x -> reads b g y -> reads (a ||| b) g (x || y).
Proof.
  intros Ha Hb. eapply reads_bind; [exact Ha|].
  destruct x; [apply reads_ret | exact Hb].
Qed.

Lemma reads_andM a b g x y :
  reads a g x -> reads b g y -> reads (a &&& b) g (x && y).
Proof.
  intros Ha Hb. eapply reads_bind; [exact Ha|].
  destruct x; [exact Hb | apply reads_ret].
Qed.

Lemma reads_getEdge g this e : edges g !! this = Some e -> reads (getEdge this) g e.
Proof. unfold reads, getEdge. now intros ->. Qed.

Lemma reads_getNode g n nd : nodes g !! n = Some nd -> reads (getNode n) g nd.
Proof. unfold reads, getNode. now intros ->. Qed.

Section LiveEdge.

Variables (g : Graph) (this : ptr) (e : Edge) (nf nt : Node).
Hypothesis live_edge : edges g !! this = Some e.
Hypothesis live_from : nodes g !! m_from e = Some nf.
Hypothesis live_to : nodes g !! m_to e = Some nt.

Lemma reads_from_isType mask :
  reads (from_isType this mask) g (Node_isType nf mask).
Proof.
  unfold from_isType.
  eapply reads_bind; [exact (reads_getEdge _ _ _ live_edge)|].
  eapply reads_bind; [exact (reads_getNode _ _ _ live_from)|]. apply reads_ret.
Qed.

Lemma reads_to_isType mask :
  reads (to_isType this mask) g (Node_isType nt mask).
Proof.
  unfold to_isType.
  eapply reads_bind; [exact (reads_getEdge _ _ _ live_edge)|].
  eapply reads_bind; [exact (reads_getNode _ _ _ live_to)|]. apply reads_ret.
Qed.

Lemma reads_getTypeString :
  reads (getTypeString this) g (getTypeString_of (m_type e)).
Proof.
  unfold getTypeString.
  eapply reads_bind; [exact (reads_getEdge _ _ _ live_edge) | apply reads_ret].
Qed.

Lemma checkType_switch_schema k :
  m_type e = !k ->
  reads (checkType_switch this) g (schema_checked k (n_type nf) (n_type nt)).
Proof.
  intros Hk. unfold checkType_switch.
  eapply reads_bind; [exact (reads_getEdge _ _ _ live_edge)|].
  rewrite Hk, EdgeType_of_value_enum.
  assert (Hsw : forall m b, reads m g b ->
            b = schema_checked k (n_type nf) (n_type nt) ->
            reads m g (schema_checked k (n_type nf) (n_type nt))).
  { now intros m b H <-. }
  destruct k;
    (eapply Hsw;
     [ repeat first [ apply reads_notM | apply reads_orM | apply reads_andM
                    | apply reads_from_isType | apply reads_to_isType ]
     | unfold typeMask, variableMask, functionMask, complexTypeMask;
       rewrite ?Node_isType_lor, ?Node_isType_flag;
       destruct (n_type nf), (n_type nt); reflexivity ]).
Qed.

(** The message [checkType] reports for this edge. *)
Lemma checkType_run k :
  m_type e = !k ->
  checkType this g =
    Some (schema_checked k (n_type nf) (n_type nt),
          if schema_checked k (n_type nf) (n_type nt) then g
          else mkGraph (nodes g) (edges g)
                 (trace g ++ [EvLogError
                    ("Edge " +:+ getTypeString_of (m_type e) +:+ " can't go from Node "
                     +:+ Node_getTypeString (n_type nf) +:+ " to Node "
                     +:+ Node_getTypeString (n_type nt))])).
Proof.
  intros Hk. unfold checkType.
  rewrite (bind_run _ _ _ _ _ (checkType_switch_schema k Hk)).
  destruct (schema_checked k (n_type nf) (n_type nt)); [reflexivity|].
  rewrite (bind_run _ _ _ _ _ reads_getTypeString).
  rewrite (bind_run _ _ _ _ _ (reads_getEdge _ _ _ live_edge)).
  rewrite (bind_run _ _ _ _ _ (reads_getNode _ _ _ live_from)).
  rewrite (bind_run _ _ _ _ _ (reads_getNode _ _ _ live_to)).
  reflexivity.
Qed.

End LiveEdge.

(** ** The schema check *)

Lemma schema_checked_member f t :
  schema_checked EDGE_MEMBER f t =
    bool_decide (f ∈ typeLike ++ [NODE_NAMESPACE] /\
                 ~ (t = NODE_NAMESPACE /\ f ∉ [NODE_UNDEFINED; NODE_NAMESPACE]) /\
                 ~ (f = NODE_ENUM /\ t <> NODE_FIELD)).
Proof. destruct f, t; vm_compute; reflexivity. Qed.

Lemma schema_checked_other k f t :
  k <> EDGE_MEMBER -> schema_checked k f t = schema_table k f t.
Proof. intros H. unfold schema_checked, schema_table. now destruct k. Qed.

(** C1 (amended): for every edge kind and every pair of endpoint kinds,
    [checkType] returns true exactly when the triple satisfies the row of
    the schema table, where the row of [Member] constrains the kind of [to]
    by its two rejections only: a [Member] edge passes iff [from] is in
    typeLike ∪ Namespace, it is not the case that [to] is Namespace while
    [from] is outside Undefined ∪ Namespace, and it is not the case that
    [from] is Enum while [to] is not Field. *)
Theorem checkType_schema g this e nf nt k :
  edges g !! this = Some e ->
  nodes g !! m_from e = Some nf ->
  nodes g !! m_to e = Some nt ->
  m_type e = !k ->
  (exists g', checkType this g = Some (schema_checked k (n_type nf) (n_type nt), g')) /\
  (k <> EDGE_MEMBER ->
   schema_checked k (n_type nf) (n_type nt) = schema_table k (n_type nf) (n_type nt)) /\
  (k = EDGE_MEMBER ->
   (schema_checked k (n_type nf) (n_type nt) = true <->
    n_type nf ∈ typeLike ++ [NODE_NAMESPACE] /\
    ~ (n_type nt = NODE_NAMESPACE /\ n_type nf ∉ [NODE_UNDEFINED; NODE_NAMESPACE]) /\
    ~ (n_type nf = NODE_ENUM /\ n_type nt <> NODE_FIELD))).
Proof.
  intros He Hf Ht Hk. split; [|split].
  - eexists. apply (checkType_run g this e nf nt He Hf Ht k Hk).
  - apply schema_checked_other.
  - intros ->. rewrite schema_checked_member. apply bool_decide_eq_true.
Qed.

(** ** Labels and renderings *)

Lemma getTypeString_of_enum k : getTypeString_of !k = EdgeType_label k.
Proof. unfold getTypeString_of. rewrite EdgeType_of_value_enum. now destruct k. Qed.

(** C9: [getTypeString(type)] returns a string for every integer [type]: the
    fixed label of the kind when [type] is one of the 15 enumerators, and
    the empty string when it is none of them. *)
Theorem getTypeString_total (type : Z) :
  (exists s, getTypeString_of type = s) /\
  (forall k, type = !k -> getTypeString_of type = EdgeType_label k) /\
  ((forall k, type <> !k) -> getTypeString_of type = EmptyString).
Proof.
  split; [eauto | split].
  - intros k ->. apply getTypeString_of_enum.
  - intros H. unfold getTypeString_of. now rewrite EdgeType_of_value_None.
Qed.

Lemma append_assoc (a b c : string) : (a +:+ b) +:+ c = a +:+ (b +:+ c).
Proof.
  induction a as [|x a IH]; [reflexivity|].
  change (String x ((a +:+ b) +:+ c) = String x (a +:+ (b +:+ c))).
  now rewrite IH.
Qed.

Lemma append_empty (a : string) : a +:+ EmptyString = a.
Proof.
  induction a as [|x a IH]; [reflexivity|].
  change (String x (a +:+ EmptyString) = String x a).
  now rewrite IH.
Qed.

(** C8: [getName] returns the label of the edge's kind, then [:], then the
    full name of the from node, then [->], then the full name of the to
    node. *)
Theorem getName_format g this e nf nt k :
  edges g !! this = Some e ->
  nodes g !! m_from e = Some nf ->
  nodes g !! m_to e = Some nt ->
  m_type e = !k ->
  getName this g =
    Some (EdgeType_label k +:+ ":" +:+ n_fullName nf +:+ "->" +:+ n_fullName nt, g).
Proof.
  intros He Hf Ht Hk.
  assert (HF : reads (getFrom this) g (m_from e)).
  { eapply reads_bind; [exact (reads_getEdge _ _ _ He) | apply reads_ret]. }
  assert (HT : reads (getTo this) g (m_to e)).
  { eapply reads_bind; [exact (reads_getEdge _ _ _ He) | apply reads_ret]. }
  unfold getName.
  rewrite (bind_run _ _ _ _ _ (reads_getTypeString g this e He)).
  rewrite (bind_run _ _ _ _ _ HF), (bind_run _ _ _ _ _ (reads_getNode _ _ _ Hf)).
  rewrite (bind_run _ _ _ _ _ HT), (bind_run _ _ _ _ _ (reads_getNode _ _ _ Ht)).
  now rewrite Hk, getTypeString_of_enum.
Qed.

Lemma getAsString_run g this e nf nt k :
  edges g !! this = Some e ->
  nodes g !! m_from e = Some nf ->
  nodes g !! m_to e = Some nt ->
  m_type e = !k ->
  getAsString this g =
    Some (rendering (Token_getId (e_token e)) (EdgeType_label k) (n_name nf) (n_name nt)
            (getComponentAccess (t_components (e_token e)))
            (getComponentAggregation (t_components (e_token e))), g).
Proof.
  intros He Hf Ht Hk. unfold getAsString.
  rewrite (bind_run _ _ _ _ _ (reads_getEdge _ _ _ He)).
  rewrite (bind_run _ _ _ _ _ (reads_getTypeString g this e He)).
  rewrite (bind_run _ _ _ _ _ (reads_getNode _ _ _ Hf)).
  rewrite (bind_run _ _ _ _ _ (reads_getNode _ _ _ Ht)).
  rewrite Hk, getTypeString_of_enum. unfold ret, rendering. do 2 f_equal.
  destruct (getComponentAccess _), (getComponentAggregation _);
    rewrite ?append_assoc, ?append_empty; reflexivity.
Qed.

(** C7: [getAsString] returns the bracketed id, the kind label, a colon and
    the quoted names of the from and to nodes joined by an arrow, followed
    by a space and the access label when an Access component is attached
    and by a space and the aggregation count when an Aggregation component
    is attached; a Member edge between nodes named A and A::b with a public
    Access component renders as [[<id>] child: "A" -> "A::b" public]. *)
Theorem getAsString_format g this e nf nt k :
  edges g !! this = Some e ->
  nodes g !! m_from e = Some nf ->
  nodes g !! m_to e = Some nt ->
  m_type e = !k ->
  getAsString this g =
    Some (rendering (Token_getId (e_token e)) (EdgeType_label k) (n_name nf) (n_name nt)
            (getComponentAccess (t_components (e_token e)))
            (getComponentAggregation (t_components (e_token e))), g) /\
  (k = EDGE_MEMBER -> n_name nf = "A" -> n_name nt = "A::b" ->
   t_components (e_token e) = [TokenComponentAccess ACCESS_PUBLIC] ->
   getAsString this g =
     Some ("[" +:+ decimal (Token_getId (e_token e)) +:+ "] child: "
           +:+ dquote +:+ "A" +:+ dquote +:+ " -> " +:+ dquote +:+ "A::b" +:+ dquote
           +:+ " public", g)).
Proof.
  intros He Hf Ht Hk.
  pose proof (getAsString_run g this e nf nt k He Hf Ht Hk) as Hrun.
  split; [exact Hrun|].
  intros -> Hnf Hnt Hc. rewrite Hrun, Hnf, Hnt, Hc. reflexivity.
Qed.

(** ** Frames: what the operations leave alone *)

Lemma preserves_ret {A B} (f : Graph -> B) (a : A) : preserves f (ret a).
Proof. intros g x g' H. now inversion H. Qed.

Lemma preserves_bind {A B C} (f : Graph -> C) (m : M A) (k : A -> M B) :
  preserves f m -> (forall a, preserves f (k a)) -> preserves f (bind m k).
Proof.
  intros Hm Hk g b g' H. unfold bind in H.
  destruct (m g) as [[a g1]|] eqn:E; [|discriminate].
  rewrite (Hk a _ _ _ H). exact (Hm _ _ _ E).
Qed.

Lemma preserves_getEdge {B} (f : Graph -> B) this : preserves f (getEdge this).
Proof.
  intros g a g' H. unfold getEdge in H.
  destruct (edges g !! this); now inversion H.
Qed.

Lemma preserves_getNode {B} (f : Graph -> B) n : preserves f (getNode n).
Proof.
  intros g a g' H. unfold getNode in H.
  destruct (nodes g !! n); now inversion H.
Qed.

Lemma preserves_if {A B} (f : Graph -> B) (c : bool) (m1 m2 : M A) :
  preserves f m1 -> preserves f m2 -> preserves f (if c then m1 else m2).
Proof. now destruct c. Qed.

Lemma preserves_orM {B} (f : Graph -> B) a b :
  preserves f a -> preserves f b -> preserves f (a ||| b).
Proof.
  intros Ha Hb. apply preserves_bind; [exact Ha|].
  intros []; [apply preserves_ret | exact Hb].
Qed.

Lemma preserves_andM {B} (f : Graph -> B) a b :
  preserves f a -> preserves f b -> preserves f (a &&& b).
Proof.
  intros Ha Hb. apply preserves_bind; [exact Ha|].
  intros []; [exact Hb | apply preserves_ret].
Qed.

Lemma preserves_notM {B} (f : Graph -> B) a : preserves f a -> preserves f (notM a).
Proof. intros Ha. apply preserves_bind; [exact Ha | intros; apply preserves_ret]. Qed.

Lemma nodes_emit ev : preserves nodes (emit ev).
Proof. intros g a g' H. now inversion H. Qed.

Lemma edges_emit ev : preserves edges (emit ev).
Proof. intros g a g' H. now inversion H. Qed.

Lemma nodes_setEdge this ed : preserves nodes (setEdge this ed).
Proof. intros g a g' H. now inversion H. Qed.

Lemma edges_setNode n nd : preserves edges (setNode n nd).
Proof. intros g a g' H. now inversion H. Qed.

(** Steps of a frame proof: split the binds and close the primitives. *)
Ltac frame :=
  repeat first
    [ apply preserves_ret
    | apply preserves_getEdge
    | apply preserves_getNode
    | apply nodes_emit
    | apply edges_emit
    | apply nodes_setEdge
    | apply edges_setNode
    | apply preserves_notM
    | apply preserves_orM
    | apply preserves_andM
    | apply preserves_if
    | apply preserves_bind; [|intros ?]
    | match goal with
      | |- preserves _ (match ?x with _ => _ end) => destruct x
      end ].

Lemma preserves_checkType {B} (f : Graph -> B) this :
  (forall ev, preserves f (emit ev)) -> preserves f (checkType this).
Proof.
  intros Hemit. unfold checkType, checkType_switch, from_isType, to_isType,
    getTypeString, LOG_ERROR.
  frame; apply Hemit.
Qed.

Lemma edges_Node_addEdge n e : preserves edges (Node_addEdge n e).
Proof. unfold Node_addEdge. frame. Qed.

Lemma edges_Node_removeEdge n e : preserves edges (Node_removeEdge n e).
Proof. unfold Node_removeEdge. frame. Qed.

Lemma nodes_call m this : preserves nodes (call m this).
Proof.
  destruct m; unfold call, getType, isType, getFrom, getTo, getName, isNode, isEdge,
    addComponentAggregation, addComponentAccess, addComponent, getAsString,
    getTypeString, LOG_ERROR; frame.
Qed.

(** ** Construction and destruction, step by step *)

Lemma insert_alter_Some (f : Node -> Node) (ns : gmap positive Node) n nd :
  ns !! n = Some nd -> <[n := f nd]> ns = alter f n ns.
Proof.
  intros H. apply map_eq. intros j.
  rewrite lookup_insert, lookup_alter.
  case_decide; [subst; now rewrite H | reflexivity].
Qed.

Lemma Node_addEdge_run g n e nd :
  nodes g !! n = Some nd ->
  Node_addEdge n e g =
    Some (tt, mkGraph (alter (Node_register e) n (nodes g)) (edges g)
                      (trace g ++ [EvAddEdge n e])).
Proof.
  intros H. unfold Node_addEdge, bind, emit, getNode, setNode. simpl.
  rewrite H. simpl. now rewrite (insert_alter_Some _ _ _ _ H).
Qed.

Lemma Node_removeEdge_run g n e nd :
  nodes g !! n = Some nd ->
  Node_removeEdge n e g =
    Some (tt, mkGraph (alter (Node_unregister e) n (nodes g)) (edges g)
                      (trace g ++ [EvRemoveEdge n e])).
Proof.
  intros H. unfold Node_removeEdge, bind, emit, getNode, setNode. simpl.
  rewrite H. simpl. now rewrite (insert_alter_Some _ _ _ _ H).
Qed.

Lemma allocEdge_run g this ed :
  edges g !! this = None ->
  allocEdge this ed g = Some (tt, mkGraph (nodes g) (<[this := ed]> (edges g)) (trace g)).
Proof. intros H. unfold allocEdge. now rewrite H. Qed.

(** A node after the registration of [this] on [from] and [to]: the same
    node, with [this] in its incidence set when it is an endpoint. *)
Lemma registered_lookup ns this from to n nd :
  ns !! n = Some nd ->
  exists nd',
    registered this from to ns !! n = Some nd' /\
    n_token nd' = n_token nd /\ n_type nd' = n_type nd /\
    n_name nd' = n_name nd /\ n_fullName nd' = n_fullName nd /\
    n_edges nd' = if bool_decide (n = from \/ n = to) then n_edges nd ∪ {[ this ]}
                  else n_edges nd.
Proof.
  clear flags_distinct labels_distinct.
  intros H. unfold registered.
  destruct (decide (to = n)) as [->|Hto]; destruct (decide (from = n)) as [->|Hfrom];
    repeat (rewrite lookup_alter_eq || rewrite lookup_alter_ne by done);
    rewrite H; simpl; eexists; (split; [reflexivity|]); simpl; repeat split;
    first [ rewrite bool_decide_eq_true_2 by auto
          | rewrite bool_decide_eq_false_2 by (intros [|]; congruence) ];
    first [ reflexivity | apply set_eq; intros x; set_unfold; tauto ].
Qed.

Lemma unregistered_lookup ns this from to n nd :
  ns !! n = Some nd ->
  exists nd',
    unregistered this from to ns !! n = Some nd' /\
    n_edges nd' = if bool_decide (n = from \/ n = to) then n_edges nd ∖ {[ this ]}
                  else n_edges nd.
Proof.
  clear flags_distinct labels_distinct.
  intros H. unfold unregistered.
  destruct (decide (to = n)) as [->|Hto]; destruct (decide (from = n)) as [->|Hfrom];
    repeat (rewrite lookup_alter_eq || rewrite lookup_alter_ne by done);
    rewrite H; simpl; eexists; (split; [reflexivity|]); simpl;
    first [ rewrite bool_decide_eq_true_2 by auto
          | rewrite bool_decide_eq_false_2 by (intros [|]; congruence) ];
    first [ reflexivity | apply set_eq; intros x; set_unfold; tauto ].
Qed.

(** The two registrations of a constructor. *)
Lemma register_both_run {A} g this from to nf nt (rest : M A) :
  nodes g !! from = Some nf ->
  nodes g !! to = Some nt ->
  (Node_addEdge from this;; Node_addEdge to this;; rest) g =
    rest (mkGraph (registered this from to (nodes g)) (edges g)
                  (trace g ++ [EvAddEdge from this; EvAddEdge to this])).
Proof.
  intros Hf Ht.
  rewrite (bind_run _ _ _ _ _ (Node_addEdge_run g from this nf Hf)).
  assert (exists nt', alter (Node_register this) from (nodes g) !! to = Some nt') as [nt' Ht'].
  { destruct (decide (from = to)) as [->|Hne];
      [rewrite lookup_alter_eq, Hf | rewrite lookup_alter_ne, Ht by done]; simpl; eauto. }
  set (g1 := mkGraph (alter (Node_register this) from (nodes g)) (edges g)
               (trace g ++ [EvAddEdge from this])).
  rewrite (bind_run _ _ _ _ _ (Node_addEdge_run g1 to this nt' Ht')).
  simpl. unfold registered. now rewrite <- app_assoc.
Qed.

Lemma unregister_both_run {A} g this from to nf nt (rest : M A) :
  nodes g !! from = Some nf ->
  nodes g !! to = Some nt ->
  (Node_removeEdge from this;; Node_removeEdge to this;; rest) g =
    rest (mkGraph (unregistered this from to (nodes g)) (edges g)
                  (trace g ++ [EvRemoveEdge from this; EvRemoveEdge to this])).
Proof.
  intros Hf Ht.
  rewrite (bind_run _ _ _ _ _ (Node_removeEdge_run g from this nf Hf)).
  assert (exists nt', alter (Node_unregister this) from (nodes g) !! to = Some nt') as [nt' Ht'].
  { destruct (decide (from = to)) as [->|Hne];
      [rewrite lookup_alter_eq, Hf | rewrite lookup_alter_ne, Ht by done]; simpl; eauto. }
  set (g1 := mkGraph (alter (Node_unregister this) from (nodes g)) (edges g)
               (trace g ++ [EvRemoveEdge from this])).
  rewrite (bind_run _ _ _ _ _ (Node_removeEdge_run g1 to this nt' Ht')).
  simpl. unfold unregistered. now rewrite <- app_assoc.
Qed.

(** [checkType] at the end of a constructor, on the edge just registered. *)
Lemma checkType_registered ns es tr this e nf nt k :
  es !! this = Some e ->
  ns !! m_from e = Some nf ->
  ns !! m_to e = Some nt ->
  m_type e = !k ->
  (checkType this;; ret tt) (mkGraph (registered this (m_from e) (m_to e) ns) es tr) =
    Some (tt, mkGraph (registered this (m_from e) (m_to e) ns) es
                (tr ++ if schema_checked k (n_type nf) (n_type nt) then []
                       else [EvLogError (checkType_message !k (n_type nf) (n_type nt))])).
Proof.
  intros He Hf Ht Hk.
  destruct (registered_lookup ns this (m_from e) (m_to e) _ _ Hf) as (nf' & Hf' & _ & Tf & _).
  destruct (registered_lookup ns this (m_from e) (m_to e) _ _ Ht) as (nt' & Ht' & _ & Tt & _).
  rewrite (bind_run _ _ _ _ _
             (checkType_run (mkGraph (registered this (m_from e) (m_to e) ns) es tr)
                this e nf' nt' He Hf' Ht' k Hk)).
  rewrite Tf, Tt, Hk. unfold ret, checkType_message.
  destruct (schema_checked k (n_type nf) (n_type nt)); simpl;
    [now rewrite app_nil_r | reflexivity].
Qed.

Lemma Edge_new_run g this id k from to nf nt :
  edges g !! this = None ->
  nodes g !! from = Some nf ->
  nodes g !! to = Some nt ->
  Edge_new this id !k from to g =
    Some (tt, mkGraph (registered this from to (nodes g))
                (<[this := mkEdge (mkToken id []) !k from to]> (edges g))
                ((trace g ++ [EvAddEdge from this; EvAddEdge to this]) ++
                 if schema_checked k (n_type nf) (n_type nt) then []
                 else [EvLogError (checkType_message !k (n_type nf) (n_type nt))])).
Proof.
  intros Hfresh Hf Ht. unfold Edge_new.
  rewrite (bind_run _ _ _ _ _ (allocEdge_run g this _ Hfresh)).
  rewrite (register_both_run
             (mkGraph (nodes g) (<[this := mkEdge (mkToken id []) !k from to]> (edges g)) (trace g))
             this from to nf nt _ Hf Ht). simpl.
  apply (checkType_registered (nodes g) _ _ this (mkEdge (mkToken id []) !k from to) nf nt k);
    [apply lookup_insert_eq | exact Hf | exact Ht | reflexivity].
Qed.

Lemma Edge_copy_run g this other o from to nf nt onf ont k :
  edges g !! this = None ->
  edges g !! other = Some o ->
  m_type o = !k ->
  nodes g !! from = Some nf ->
  nodes g !! to = Some nt ->
  nodes g !! m_from o = Some onf ->
  nodes g !! m_to o = Some ont ->
  Edge_copy this other from to g =
    Some (tt, mkGraph (registered this from to (nodes g))
                (<[this := mkEdge (e_token o) (m_type o) from to]> (edges g))
                (((trace g ++ [EvAddEdge from this; EvAddEdge to this]) ++
                  if not_plain_copies o from to nf nt onf ont
                  then [EvLogError "Nodes are not plain copies."] else []) ++
                 if schema_checked k (n_type nf) (n_type nt) then []
                 else [EvLogError (checkType_message !k (n_type nf) (n_type nt))])).
Proof.
  intros Hfresh Ho Hk Hf Ht Hof Hot. unfold Edge_copy.
  rewrite (bind_run _ _ _ _ _ (reads_getEdge _ _ _ Ho)).
  rewrite (bind_run _ _ _ _ _ (allocEdge_run g this _ Hfresh)).
  set (es := <[this := mkEdge (e_token o) (m_type o) from to]> (edges g)).
  rewrite (register_both_run (mkGraph (nodes g) es (trace g)) this from to nf nt _ Hf Ht).
  simpl.
  set (g3 := mkGraph (registered this from to (nodes g)) es
               (trace g ++ [EvAddEdge from this; EvAddEdge to this])).
  destruct (registered_lookup (nodes g) this from to _ _ Hf) as (nf' & Hf' & Kf & _).
  destruct (registered_lookup (nodes g) this from to _ _ Ht) as (nt' & Ht' & Kt & _).
  destruct (registered_lookup (nodes g) this from to _ _ Hof) as (onf' & Hof' & Kof & _).
  destruct (registered_lookup (nodes g) this from to _ _ Hot) as (ont' & Hot' & Kot & _).
  match goal with
  | |- bind ?c _ g3 = _ =>
      assert (Hc : reads c g3 (not_plain_copies o from to nf nt onf ont))
  end.
  { unfold not_plain_copies, Node_getId. rewrite <- Kf, <- Kt, <- Kof, <- Kot.
    repeat apply reads_orM; try apply reads_ret.
    - eapply reads_bind; [exact (reads_getNode g3 _ _ Hf')|].
      eapply reads_bind; [exact (reads_getNode g3 _ _ Hof')|]. apply reads_ret.
    - eapply reads_bind; [exact (reads_getNode g3 _ _ Ht')|].
      eapply reads_bind; [exact (reads_getNode g3 _ _ Hot')|]. apply reads_ret. }
  rewrite (bind_run _ _ _ _ _ Hc).
  assert (Hlog : forall (rest : M unit),
             ((if not_plain_copies o from to nf nt onf ont
               then LOG_ERROR "Nodes are not plain copies." else ret tt);; rest) g3 =
             rest (mkGraph (nodes g3) (edges g3)
                     (trace g3 ++ if not_plain_copies o from to nf nt onf ont
                                  then [EvLogError "Nodes are not plain copies."] else []))).
  { intros rest. destruct (not_plain_copies o from to nf nt onf ont);
      unfold bind, LOG_ERROR, emit, ret; simpl; [reflexivity|].
    now rewrite app_nil_r. }
  rewrite Hlog. subst g3. simpl.
  apply (checkType_registered (nodes g) es _ this (mkEdge (e_token o) (m_type o) from to)
           nf nt k); [apply lookup_insert_eq | exact Hf | exact Ht | exact Hk].
Qed.

Lemma Edge_delete_run g this e nf nt :
  edges g !! this = Some e ->
  nodes g !! m_from e = Some nf ->
  nodes g !! m_to e = Some nt ->
  Edge_delete this g =
    Some (tt, mkGraph (unregistered this (m_from e) (m_to e) (nodes g))
                (delete this (edges g))
                (trace g ++ [EvRemoveEdge (m_from e) this; EvRemoveEdge (m_to e) this])).
Proof.
  intros He Hf Ht. unfold Edge_delete.
  rewrite (bind_run _ _ _ _ _ (reads_getEdge _ _ _ He)).
  now rewrite (unregister_both_run g this _ _ nf nt _ Hf Ht).
Qed.

(** ** Registration on the endpoints *)

Lemma filter_eq_NoDup (e : positive) (l : list positive) :
  NoDup l -> length (filter (fun x => x = e) l) = if decide (e ∈ l) then 1%nat else 0%nat.
Proof.
  induction 1 as [|x l Hx Hl IH].
  - reflexivity.
  - destruct (decide (x = e)) as [->|Hne].
    + rewrite filter_cons_True by reflexivity. simpl. rewrite IH.
      rewrite decide_False by exact Hx. rewrite decide_True by apply list_elem_of_here.
      reflexivity.
    + rewrite filter_cons_False by exact Hne. rewrite IH.
      destruct (decide (e ∈ l)) as [Hin|Hin].
      * rewrite decide_True by (now apply list_elem_of_further). reflexivity.
      * rewrite decide_False; [reflexivity|].
        intros [E|Hin']%elem_of_cons; [now apply Hne | now apply Hin].
Qed.

Lemma occurrences_elem e (s : gset positive) : e ∈ s -> occurrences e s = 1%nat.
Proof.
  intros H. unfold occurrences. rewrite filter_eq_NoDup by apply NoDup_elements.
  apply decide_True. now apply elem_of_elements.
Qed.

Lemma occurrences_not_elem e (s : gset positive) : e ∉ s -> occurrences e s = 0%nat.
Proof.
  intros H. unfold occurrences. rewrite filter_eq_NoDup by apply NoDup_elements.
  apply decide_False. now rewrite elem_of_elements.
Qed.

(** Both endpoints list [this] once the registrations are done. *)
Lemma registered_endpoints ns this from to nf nt :
  ns !! from = Some nf ->
  ns !! to = Some nt ->
  exists nf' nt',
    registered this from to ns !! from = Some nf' /\ this ∈ n_edges nf' /\
    n_type nf' = n_type nf /\
    registered this from to ns !! to = Some nt' /\ this ∈ n_edges nt' /\
    n_type nt' = n_type nt.
Proof.
  intros Hf Ht.
  destruct (registered_lookup ns this from to _ _ Hf) as (nf' & Hf' & _ & Tf & _ & _ & Ef).
  destruct (registered_lookup ns this from to _ _ Ht) as (nt' & Ht' & _ & Tt & _ & _ & Et).
  rewrite bool_decide_eq_true_2 in Ef by auto.
  rewrite bool_decide_eq_true_2 in Et by auto.
  exists nf', nt'. rewrite Ef, Et.
  repeat split; try assumption; apply elem_of_union_r, elem_of_singleton; reflexivity.
Qed.

Lemma unregistered_endpoints ns this from to nf nt :
  ns !! from = Some nf ->
  ns !! to = Some nt ->
  exists nf' nt',
    unregistered this from to ns !! from = Some nf' /\ (this ∉ n_edges nf') /\
    unregistered this from to ns !! to = Some nt' /\ (this ∉ n_edges nt').
Proof.
  intros Hf Ht.
  destruct (unregistered_lookup ns this from to _ _ Hf) as (nf' & Hf' & Ef).
  destruct (unregistered_lookup ns this from to _ _ Ht) as (nt' & Ht' & Et).
  rewrite bool_decide_eq_true_2 in Ef by auto.
  rewrite bool_decide_eq_true_2 in Et by auto.
  assert (Hout : forall s : gset positive, this ∉ s ∖ {[ this ]}).
  { intros s [_ Hn]%elem_of_difference. apply Hn. now apply elem_of_singleton. }
  exists nf', nt'. rewrite Ef, Et. repeat split; try assumption; apply Hout.
Qed.

(** C2: constructing an edge of any kind between any two live nodes
    registers it with the from node first and with the to node second,
    whether or not the schema check passes; when the check fails, exactly
    one diagnostic is reported and the edge is created and registered on
    both endpoints all the same. *)
Theorem Edge_new_registers g this id k from to nf nt :
  edges g !! this = None ->
  nodes g !! from = Some nf ->
  nodes g !! to = Some nt ->
  exists g' diag,
    Edge_new this id !k from to g = Some (tt, g') /\
    trace g' = trace g ++ [EvAddEdge from this; EvAddEdge to this] ++ map EvLogError diag /\
    length diag = (if schema_checked k (n_type nf) (n_type nt) then 0 else 1)%nat /\
    edges g' !! this = Some (mkEdge (mkToken id []) !k from to) /\
    (exists nf' nt',
        nodes g' !! from = Some nf' /\ this ∈ n_edges nf' /\
        nodes g' !! to = Some nt' /\ this ∈ n_edges nt') /\
    (exists g'', checkType this g' = Some (schema_checked k (n_type nf) (n_type nt), g'')).
Proof.
  intros Hfresh Hf Ht.
  destruct (registered_endpoints (nodes g) this from to nf nt Hf Ht)
    as (nf' & nt' & Hf' & If & Tf & Ht' & It & Tt).
  eexists.
  exists (if schema_checked k (n_type nf) (n_type nt) then []
          else [checkType_message !k (n_type nf) (n_type nt)]).
  split; [apply (Edge_new_run g this id k from to nf nt Hfresh Hf Ht)|].
  simpl. repeat split.
  - rewrite <- app_assoc. now destruct (schema_checked k (n_type nf) (n_type nt)).
  - now destruct (schema_checked k (n_type nf) (n_type nt)).
  - apply lookup_insert_eq.
  - exists nf', nt'. auto.
  - eexists. rewrite <- Tf, <- Tt.
    match goal with
    | |- checkType this ?G = _ =>
        refine (checkType_run G this (mkEdge (mkToken id []) !k from to) nf' nt'
                  _ Hf' Ht' k eq_refl)
    end.
    apply lookup_insert_eq.
Qed.

(** C3: after either constructor both endpoints' incidence sets list the
    new edge exactly once; after the destructor neither endpoint's set
    contains it; and no other member function of [Edge] changes the
    incidence set of any node. *)
Theorem registration_invariant :
  (forall g this id k from to nf nt,
      edges g !! this = None ->
      nodes g !! from = Some nf ->
      nodes g !! to = Some nt ->
      exists g' nf' nt',
        Edge_new this id !k from to g = Some (tt, g') /\
        nodes g' !! from = Some nf' /\ occurrences this (n_edges nf') = 1%nat /\
        nodes g' !! to = Some nt' /\ occurrences this (n_edges nt') = 1%nat) /\
  (forall g this other o from to nf nt onf ont k,
      edges g !! this = None ->
      edges g !! other = Some o ->
      m_type o = !k ->
      nodes g !! from = Some nf ->
      nodes g !! to = Some nt ->
      nodes g !! m_from o = Some onf ->
      nodes g !! m_to o = Some ont ->
      exists g' nf' nt',
        Edge_copy this other from to g = Some (tt, g') /\
        nodes g' !! from = Some nf' /\ occurrences this (n_edges nf') = 1%nat /\
        nodes g' !! to = Some nt' /\ occurrences this (n_edges nt') = 1%nat) /\
  (forall g this e nf nt,
      edges g !! this = Some e ->
      nodes g !! m_from e = Some nf ->
      nodes g !! m_to e = Some nt ->
      exists g' nf' nt',
        Edge_delete this g = Some (tt, g') /\
        edges g' !! this = None /\
        nodes g' !! m_from e = Some nf' /\ occurrences this (n_edges nf') = 0%nat /\
        nodes g' !! m_to e = Some nt' /\ occurrences this (n_edges nt') = 0%nat) /\
  (forall m this g g' n,
      call m this g = Some (tt, g') ->
      n_edges <$> nodes g' !! n = n_edges <$> nodes g !! n).
Proof.
  repeat split.
  - intros g this id k from to nf nt Hfresh Hf Ht.
    destruct (registered_endpoints (nodes g) this from to nf nt Hf Ht)
      as (nf' & nt' & Hf' & If & _ & Ht' & It & _).
    eexists. exists nf', nt'.
    split; [apply (Edge_new_run g this id k from to nf nt Hfresh Hf Ht)|].
    simpl. auto using occurrences_elem.
  - intros g this other o from to nf nt onf ont k Hfresh Ho Hk Hf Ht Hof Hot.
    destruct (registered_endpoints (nodes g) this from to nf nt Hf Ht)
      as (nf' & nt' & Hf' & If & _ & Ht' & It & _).
    eexists. exists nf', nt'.
    split; [apply (Edge_copy_run g this other o from to nf nt onf ont k
                     Hfresh Ho Hk Hf Ht Hof Hot)|].
    simpl. auto using occurrences_elem.
  - intros g this e nf nt He Hf Ht.
    destruct (unregistered_endpoints (nodes g) this _ _ nf nt Hf Ht)
      as (nf' & nt' & Hf' & If & Ht' & It).
    eexists. exists nf', nt'.
    split; [apply (Edge_delete_run g this e nf nt He Hf Ht)|].
    simpl. split; [apply lookup_delete_eq|]. auto using occurrences_not_elem.
  - intros m this g g' n H. now rewrite (nodes_call m this g tt g' H).
Qed.

Lemma checkType_message_not_copy_report type f t :
  checkType_message type f t <> "Nodes are not plain copies.".
Proof. unfold checkType_message. intros H. discriminate H. Qed.

Lemma not_plain_copies_true o from to nf nt onf ont :
  not_plain_copies o from to nf nt onf ont = true <->
  from = m_from o \/ to = m_to o \/
  Node_getId nf <> Node_getId onf \/ Node_getId nt <> Node_getId ont.
Proof.
  unfold not_plain_copies.
  rewrite !orb_true_iff, !negb_true_iff, !bool_decide_eq_true, !N.eqb_neq. tauto.
Qed.

(** C6: the copy constructor gives the clone the kind of the source edge,
    registers it on both replacement nodes, and reports that the nodes are
    not plain copies exactly when the new from node is the original from
    node, or the new to node is the original to node, or the ids of the new
    and original from nodes differ, or the ids of the new and original to
    nodes differ; the clone is created in either case. *)
Theorem Edge_copy_diagnostic g this other o from to nf nt onf ont k :
  edges g !! this = None ->
  edges g !! other = Some o ->
  m_type o = !k ->
  nodes g !! from = Some nf ->
  nodes g !! to = Some nt ->
  nodes g !! m_from o = Some onf ->
  nodes g !! m_to o = Some ont ->
  exists g' evs,
    Edge_copy this other from to g = Some (tt, g') /\
    edges g' !! this = Some (mkEdge (e_token o) (m_type o) from to) /\
    (exists nf' nt',
        nodes g' !! from = Some nf' /\ this ∈ n_edges nf' /\
        nodes g' !! to = Some nt' /\ this ∈ n_edges nt') /\
    trace g' = trace g ++ evs /\
    ("Nodes are not plain copies." ∈ errors evs <->
     from = m_from o \/ to = m_to o \/
     Node_getId nf <> Node_getId onf \/ Node_getId nt <> Node_getId ont).
Proof.
  intros Hfresh Ho Hk Hf Ht Hof Hot.
  destruct (registered_endpoints (nodes g) this from to nf nt Hf Ht)
    as (nf' & nt' & Hf' & If & _ & Ht' & It & _).
  eexists. eexists.
  split; [apply (Edge_copy_run g this other o from to nf nt onf ont k
                   Hfresh Ho Hk Hf Ht Hof Hot)|].
  simpl. split; [apply lookup_insert_eq|].
  split; [exists nf', nt'; auto|].
  split; [rewrite <- !app_assoc; reflexivity|].
  rewrite <- not_plain_copies_true.
  destruct (not_plain_copies o from to nf nt onf ont),
           (schema_checked k (n_type nf) (n_type nt)); simpl.
  - split; [reflexivity | intros _; apply list_elem_of_here].
  - split; [reflexivity | intros _; apply list_elem_of_here].
  - split; [intros H; inversion H | discriminate].
  - split; [|discriminate].
    intros [E|H]%elem_of_cons; [|inversion H].
    symmetry in E. now apply checkType_message_not_copy_report in E.
Qed.

(** ** Components *)

Lemma getComponentAggregation_app cs c :
  getComponentAggregation (cs ++ [c]) =
    match getComponentAggregation cs with
    | Some n => Some n
    | None => match c with
              | TokenComponentAggregation n => Some n
              | TokenComponentAccess _ => None
              end
    end.
Proof.
  induction cs as [|[a|n] cs IH]; simpl; [now destruct c | exact IH | reflexivity].
Qed.

Lemma getComponentAccess_app cs c :
  getComponentAccess (cs ++ [c]) =
    match getComponentAccess cs with
    | Some a => Some a
    | None => match c with
              | TokenComponentAccess a => Some a
              | TokenComponentAggregation _ => None
              end
    end.
Proof.
  induction cs as [|[a|n] cs IH]; simpl; [now destruct c | reflexivity | exact IH].
Qed.

(** The edge [e] with the component [c] attached. *)
Lemma addComponent_run g this e c :
  edges g !! this = Some e ->
  addComponent this c g =
    Some (tt, mkGraph (nodes g)
                (<[this := mkEdge (Token_addComponent (e_token e) c)
                             (m_type e) (m_from e) (m_to e)]> (edges g))
                (trace g)).
Proof.
  intros He. unfold addComponent.
  now rewrite (bind_run _ _ _ _ _ (reads_getEdge _ _ _ He)).
Qed.

Lemma addComponentAggregation_run g this e count :
  edges g !! this = Some e ->
  addComponentAggregation this count g =
    match getComponentAggregation (t_components (e_token e)) with
    | Some _ => LOG_ERROR "TokenComponentAggregation has been set before!" g
    | None =>
        if negb (m_type e =? !EDGE_AGGREGATION) then
          LOG_ERROR ("TokenComponentAggregation can't be set on edge of type: "
                     +:+ getTypeString_of (m_type e)) g
        else addComponent this (TokenComponentAggregation count) g
    end.
Proof.
  intros He. unfold addComponentAggregation.
  rewrite (bind_run _ _ _ _ _ (reads_getEdge _ _ _ He)).
  destruct (getComponentAggregation _); [reflexivity|].
  destruct (negb _); [|reflexivity].
  now rewrite (bind_run _ _ _ _ _ (reads_getTypeString g this e He)).
Qed.

Lemma addComponentAccess_run g this e access :
  edges g !! this = Some e ->
  addComponentAccess this access g =
    match getComponentAccess (t_components (e_token e)) with
    | Some _ => LOG_ERROR "TokenComponentAccess has been set before!" g
    | None =>
        if negb (m_type e =? !EDGE_MEMBER) && negb (m_type e =? !EDGE_INHERITANCE) then
          LOG_ERROR ("TokenComponentAccess can't be set on edge of type: "
                     +:+ getTypeString_of (m_type e)) g
        else addComponent this (TokenComponentAccess access) g
    end.
Proof.
  intros He. unfold addComponentAccess.
  rewrite (bind_run _ _ _ _ _ (reads_getEdge _ _ _ He)).
  destruct (getComponentAccess _); [reflexivity|].
  destruct (negb _ && negb _); [|reflexivity].
  now rewrite (bind_run _ _ _ _ _ (reads_getTypeString g this e He)).
Qed.

(** C4: [addComponentAggregation] attaches the component exactly when the
    edge has no Aggregation component yet and its kind is Aggregation;
    otherwise it reports one diagnostic and leaves the edge as it is.  A
    second attempt on the same Aggregation edge is rejected and the first
    component stays. *)
Theorem addComponentAggregation_guard g this e k count :
  edges g !! this = Some e ->
  m_type e = !k ->
  exists g',
    addComponentAggregation this count g = Some (tt, g') /\
    nodes g' = nodes g /\
    (getComponentAggregation (t_components (e_token e)) = None /\ k = EDGE_AGGREGATION ->
     exists e',
       e' = mkEdge (Token_addComponent (e_token e) (TokenComponentAggregation count))
              (m_type e) (m_from e) (m_to e) /\
       edges g' = <[this := e']> (edges g) /\
       getComponentAggregation (t_components (e_token e')) = Some count /\
       trace g' = trace g /\
       forall count2, exists g'' msg,
         addComponentAggregation this count2 g' = Some (tt, g'') /\
         edges g'' = edges g' /\
         trace g'' = trace g' ++ [EvLogError msg]) /\
    (~ (getComponentAggregation (t_components (e_token e)) = None /\ k = EDGE_AGGREGATION) ->
     edges g' = edges g /\ exists msg, trace g' = trace g ++ [EvLogError msg]).
Proof.
  intros He Hk. rewrite (addComponentAggregation_run g this e count He).
  assert (Heq : (m_type e =? !EDGE_AGGREGATION) = bool_decide (k = EDGE_AGGREGATION))
    by (rewrite Hk; apply EdgeType_value_eqb).
  rewrite Heq.
  destruct (getComponentAggregation (t_components (e_token e))) as [n|] eqn:Hc.
  - eexists. split; [reflexivity|]. simpl. split; [reflexivity|]. split.
    + intros [? _]. discriminate.
    + intros _. eauto.
  - case_bool_decide as Hagg; simpl.
    + rewrite (addComponent_run g this e _ He).
      eexists. split; [reflexivity|]. simpl. split; [reflexivity|]. split.
      * intros _. eexists. split; [reflexivity|]. split; [reflexivity|]. simpl.
        split; [now rewrite getComponentAggregation_app, Hc|].
        split; [reflexivity|]. intros count2.
        erewrite addComponentAggregation_run by apply lookup_insert_eq. simpl.
        rewrite getComponentAggregation_app, Hc. eexists. eexists.
        split; [reflexivity|]. simpl. eauto.
      * intros H. exfalso. apply H. split; [reflexivity | exact Hagg].
    + eexists. split; [reflexivity|]. simpl. split; [reflexivity|]. split.
      * intros [_ ?]. contradiction.
      * intros _. eauto.
Qed.

(** C5: [addComponentAccess] attaches the component exactly when the edge
    has no Access component yet and its kind is Member or Inheritance;
    otherwise it reports one diagnostic and leaves the edge as it is.  So
    an attachment to a Call edge is rejected, and an attachment to a Member
    or Inheritance edge without an Access component succeeds. *)
Theorem addComponentAccess_guard g this e k access :
  edges g !! this = Some e ->
  m_type e = !k ->
  exists g',
    addComponentAccess this access g = Some (tt, g') /\
    nodes g' = nodes g /\
    (getComponentAccess (t_components (e_token e)) = None /\
     (k = EDGE_MEMBER \/ k = EDGE_INHERITANCE) ->
     exists e',
       e' = mkEdge (Token_addComponent (e_token e) (TokenComponentAccess access))
              (m_type e) (m_from e) (m_to e) /\
       edges g' = <[this := e']> (edges g) /\
       getComponentAccess (t_components (e_token e')) = Some access /\
       trace g' = trace g) /\
    (~ (getComponentAccess (t_components (e_token e)) = None /\
        (k = EDGE_MEMBER \/ k = EDGE_INHERITANCE)) ->
     edges g' = edges g /\ exists msg, trace g' = trace g ++ [EvLogError msg]) /\
    (k = EDGE_CALL ->
     edges g' = edges g /\ exists msg, trace g' = trace g ++ [EvLogError msg]).
Proof.
  intros He Hk. rewrite (addComponentAccess_run g this e access He).
  assert (Heq : negb (m_type e =? !EDGE_MEMBER) && negb (m_type e =? !EDGE_INHERITANCE) =
                negb (bool_decide (k = EDGE_MEMBER \/ k = EDGE_INHERITANCE))).
  { rewrite Hk, !EdgeType_value_eqb. now destruct k. }
  rewrite Heq.
  destruct (getComponentAccess (t_components (e_token e))) as [a|] eqn:Hc.
  - eexists. split; [reflexivity|]. simpl. split; [reflexivity|].
    repeat split; eauto. intros [? _]. discriminate.
  - case_bool_decide as Hkind; simpl.
    + rewrite (addComponent_run g this e _ He).
      eexists. split; [reflexivity|]. simpl. split; [reflexivity|]. split; [|split].
      * intros _. eexists. split; [reflexivity|]. split; [reflexivity|]. simpl.
        split; [now rewrite getComponentAccess_app, Hc | reflexivity].
      * intros H. exfalso. apply H. split; [reflexivity | exact Hkind].
      * intros ->. destruct Hkind; discriminate.
    + eexists. split; [reflexivity|]. simpl. split; [reflexivity|].
      repeat split; eauto. intros [_ ?]. contradiction.
Qed.

(** ** The components of reachable edges *)

Lemma bind_inv {A B} (m : M A) (k : A -> M B) g b g' :
  bind m k g = Some (b, g') ->
  exists a g1, m g = Some (a, g1) /\ k a g1 = Some (b, g').
Proof.
  unfold bind. destruct (m g) as [[a g1]|]; [eauto | discriminate].
Qed.

Lemma edges_allocEdge g this ed u g' :
  allocEdge this ed g = Some (u, g') -> edges g' = <[this := ed]> (edges g).
Proof.
  unfold allocEdge. destruct (edges g !! this); [discriminate|].
  intros H. now inversion H.
Qed.

Lemma edges_Edge_new g this id type from to g' :
  Edge_new this id type from to g = Some (tt, g') ->
  edges g' = <[this := mkEdge (mkToken id []) type from to]> (edges g).
Proof.
  intros H. apply bind_inv in H as (u & g1 & Ha & H).
  apply edges_allocEdge in Ha. rewrite <- Ha.
  assert (P : preserves edges (Node_addEdge from this;; Node_addEdge to this;;
                               checkType this;; ret tt)).
  { unfold Node_addEdge. frame. }
  exact (P _ _ _ H).
Qed.

Lemma edges_Edge_copy g this other from to g' :
  Edge_copy this other from to g = Some (tt, g') ->
  exists o, edges g !! other = Some o /\
            edges g' = <[this := mkEdge (e_token o) (m_type o) from to]> (edges g).
Proof.
  intros H. apply bind_inv in H as (o & g0 & Ho & H).
  unfold getEdge in Ho. destruct (edges g !! other) as [o'|] eqn:Eo; [|discriminate].
  inversion Ho; subst o' g0. clear Ho.
  apply bind_inv in H as (u & g1 & Ha & H).
  apply edges_allocEdge in Ha. exists o. split; [reflexivity|]. rewrite <- Ha.
  apply bind_inv in H as (u1 & g2 & H1 & H). rewrite <- (edges_Node_addEdge _ _ _ _ _ H1).
  apply bind_inv in H as (u2 & g3 & H2 & H). rewrite <- (edges_Node_addEdge _ _ _ _ _ H2).
  assert (P : forall c : M bool, preserves edges c ->
              preserves edges (do c <- c;
                (if c then LOG_ERROR "Nodes are not plain copies." else ret tt);;
                checkType this;; ret tt)).
  { intros c Hc. unfold LOG_ERROR. frame. exact Hc. }
  refine (P _ _ _ _ _ H). frame.
Qed.

Lemma edges_Edge_delete g this g' :
  Edge_delete this g = Some (tt, g') -> edges g' = delete this (edges g).
Proof.
  intros H. apply bind_inv in H as (e & g0 & He & H).
  rewrite <- (preserves_getEdge edges _ _ _ _ He).
  apply bind_inv in H as (u1 & g1 & H1 & H). rewrite <- (edges_Node_removeEdge _ _ _ _ _ H1).
  apply bind_inv in H as (u2 & g2 & H2 & H). rewrite <- (edges_Node_removeEdge _ _ _ _ _ H2).
  now inversion H.
Qed.

Lemma edges_call_readonly m this :
  match m with
  | Call_addComponentAggregation _ | Call_addComponentAccess _ => True
  | _ => preserves edges (call m this)
  end.
Proof.
  destruct m; try exact I;
    unfold call, getType, isType, getFrom, getTo, getName, isNode, isEdge,
      getAsString, getTypeString; frame.
Qed.

Lemma components_fit_attach_access e a :
  getComponentAccess (t_components (e_token e)) = None ->
  negb (m_type e =? !EDGE_MEMBER) && negb (m_type e =? !EDGE_INHERITANCE) = false ->
  components_fit e ->
  components_fit (mkEdge (Token_addComponent (e_token e) (TokenComponentAccess a))
                    (m_type e) (m_from e) (m_to e)).
Proof.
  intros Hc Hk [_ Hagg]. split; simpl.
  - intros _. apply andb_false_iff in Hk as [Hk|Hk];
      apply negb_false_iff, Z.eqb_eq in Hk; auto.
  - unfold hasAggregation in *. simpl. rewrite getComponentAggregation_app.
    intros H. apply Hagg. destruct (getComponentAggregation _); [exact H|].
    apply bool_decide_eq_true in H. now destruct H.
Qed.

Lemma components_fit_attach_aggregation e n :
  getComponentAggregation (t_components (e_token e)) = None ->
  negb (m_type e =? !EDGE_AGGREGATION) = false ->
  components_fit e ->
  components_fit (mkEdge (Token_addComponent (e_token e) (TokenComponentAggregation n))
                    (m_type e) (m_from e) (m_to e)).
Proof.
  intros Hc Hk [Hacc _]. split; simpl.
  - unfold hasAccess in *. simpl. rewrite getComponentAccess_app.
    intros H. apply Hacc. destruct (getComponentAccess _); [exact H|].
    apply bool_decide_eq_true in H. now destruct H.
  - intros _. now apply negb_false_iff, Z.eqb_eq in Hk.
Qed.

(** Every step keeps the components of every edge fitting its kind. *)
Lemma exec_components_fit op g g' :
  (forall p e, edges g !! p = Some e -> components_fit e) ->
  exec op g = Some (tt, g') ->
  forall p e, edges g' !! p = Some e -> components_fit e.
Proof.
  intros Inv Hstep p e. destruct op as [this id type from to|this other from to|this|m this];
    simpl in Hstep.
  - rewrite (edges_Edge_new _ _ _ _ _ _ _ Hstep), lookup_insert.
    case_decide; [|apply Inv]. intros [= <-]. split; intros Hx; discriminate Hx.
  - destruct (edges_Edge_copy _ _ _ _ _ _ Hstep) as (o & Ho & ->).
    rewrite lookup_insert. case_decide; [|apply Inv]. intros [= <-].
    exact (Inv _ _ Ho).
  - rewrite (edges_Edge_delete _ _ _ Hstep), lookup_delete.
    case_decide; [discriminate | apply Inv].
  - pose proof (edges_call_readonly m this) as Hro.
    destruct m; try (rewrite (Hro _ _ _ Hstep); apply Inv); simpl in Hstep.
    + destruct (edges g !! this) as [e0|] eqn:He0;
        [|unfold addComponentAggregation, bind, getEdge in Hstep;
          rewrite He0 in Hstep; discriminate].
      rewrite (addComponentAggregation_run g this e0 count He0) in Hstep.
      destruct (getComponentAggregation (t_components (e_token e0))) eqn:Hc;
        [rewrite (edges_emit _ _ _ _ Hstep); apply Inv|].
      destruct (negb (m_type e0 =? !EDGE_AGGREGATION)) eqn:Hk;
        [rewrite (edges_emit _ _ _ _ Hstep); apply Inv|].
      rewrite (addComponent_run g this e0 _ He0) in Hstep. inversion Hstep. simpl.
      rewrite lookup_insert. case_decide; [|apply Inv]. intros [= <-].
      apply components_fit_attach_aggregation; eauto.
    + destruct (edges g !! this) as [e0|] eqn:He0;
        [|unfold addComponentAccess, bind, getEdge in Hstep;
          rewrite He0 in Hstep; discriminate].
      rewrite (addComponentAccess_run g this e0 access He0) in Hstep.
      destruct (getComponentAccess (t_components (e_token e0))) eqn:Hc;
        [rewrite (edges_emit _ _ _ _ Hstep); apply Inv|].
      destruct (negb (m_type e0 =? !EDGE_MEMBER) && negb (m_type e0 =? !EDGE_INHERITANCE))
        eqn:Hk; [rewrite (edges_emit _ _ _ _ Hstep); apply Inv|].
      rewrite (addComponent_run g this e0 _ He0) in Hstep. inversion Hstep. simpl.
      rewrite lookup_insert. case_decide; [|apply Inv]. intros [= <-].
      apply components_fit_attach_access; eauto.
Qed.

Lemma reachable_components_fit g :
  reachable g -> forall p e, edges g !! p = Some e -> components_fit e.
Proof.
  induction 1 as [ns tr|g op g' _ IH Hstep].
  - intros p e H. simpl in H. now rewrite lookup_empty in H.
  - exact (exec_components_fit op g g' IH Hstep).
Qed.

(** C10: on every graph built with the constructors, the destructor and
    the member functions of [Edge], no edge carries an Access component and
    an Aggregation component at once: an Access component sits only on a
    Member or Inheritance edge, an Aggregation component only on an
    Aggregation edge. *)
Theorem components_exclusive g this e :
  reachable g ->
  edges g !! this = Some e ->
  (hasAccess e = true -> m_type e = !EDGE_MEMBER \/ m_type e = !EDGE_INHERITANCE) /\
  (hasAggregation e = true -> m_type e = !EDGE_AGGREGATION) /\
  hasAccess e && hasAggregation e = false.
Proof.
  intros Hr He. destruct (reachable_components_fit g Hr this e He) as [Hacc Hagg].
  split; [exact Hacc|]. split; [exact Hagg|].
  destruct (hasAccess e) eqn:Ha; [|reflexivity].
  destruct (hasAggregation e) eqn:Hg; [|reflexivity].
  specialize (Hagg eq_refl).
  destruct (Hacc eq_refl) as [Hm|Hm]; rewrite Hagg in Hm;
    apply labels_distinct in Hm; discriminate Hm.
Qed.

(** ** The schema check on any edge *)

Lemma checkType_switch_any g this e nf nt :
  edges g !! this = Some e ->
  nodes g !! m_from e = Some nf ->
  nodes g !! m_to e = Some nt ->
  reads (checkType_switch this) g (checkType_result (m_type e) (n_type nf) (n_type nt)).
Proof.
  intros He Hf Ht. unfold checkType_result.
  destruct (EdgeType_of_value (m_type e)) as [k|] eqn:E.
  - apply EdgeType_of_value_Some in E.
    exact (checkType_switch_schema g this e nf nt He Hf Ht k E).
  - unfold checkType_switch.
    eapply reads_bind; [exact (reads_getEdge _ _ _ He)|].
    rewrite E. apply reads_ret.
Qed.

Lemma checkType_run_any g this e nf nt :
  edges g !! this = Some e ->
  nodes g !! m_from e = Some nf ->
  nodes g !! m_to e = Some nt ->
  checkType this g =
    Some (checkType_result (m_type e) (n_type nf) (n_type nt),
          mkGraph (nodes g) (edges g)
            (trace g ++ if checkType_result (m_type e) (n_type nf) (n_type nt) then []
                        else [EvLogError (checkType_message (m_type e) (n_type nf) (n_type nt))])).
Proof.
  intros He Hf Ht. unfold checkType.
  rewrite (bind_run _ _ _ _ _ (checkType_switch_any g this e nf nt He Hf Ht)).
  destruct (checkType_result (m_type e) (n_type nf) (n_type nt)).
  - unfold ret. rewrite app_nil_r. now destruct g.
  - rewrite (bind_run _ _ _ _ _ (reads_getTypeString g this e He)).
    rewrite (bind_run _ _ _ _ _ (reads_getEdge _ _ _ He)).
    rewrite (bind_run _ _ _ _ _ (reads_getNode _ _ _ Hf)).
    rewrite (bind_run _ _ _ _ _ (reads_getNode _ _ _ Ht)).
    reflexivity.
Qed.

(** X1: on a live edge with live endpoints [checkType] always returns; it
    changes no node and no edge, and it reports exactly one diagnostic when
    it returns false and none when it returns true. *)
Theorem checkType_reports_iff_false g this e nf nt :
  edges g !! this = Some e ->
  nodes g !! m_from e = Some nf ->
  nodes g !! m_to e = Some nt ->
  exists b g',
    checkType this g = Some (b, g') /\
    nodes g' = nodes g /\ edges g' = edges g /\
    (b = true -> trace g' = trace g) /\
    (b = false -> exists msg, trace g' = trace g ++ [EvLogError msg]).
Proof.
  intros He Hf Ht. eexists. eexists.
  split; [exact (checkType_run_any g this e nf nt He Hf Ht)|]. simpl.
  repeat split.
  - intros ->. apply app_nil_r.
  - intros ->. eauto.
Qed.

(** X2: when [m_type] holds an integer that is none of the 15 enumerators, no
    case of the switch is taken: [checkType] returns false whatever the
    endpoints are, and its report carries the empty kind label. *)
Theorem checkType_unknown_type g this e nf nt :
  edges g !! this = Some e ->
  nodes g !! m_from e = Some nf ->
  nodes g !! m_to e = Some nt ->
  (forall k, m_type e <> !k) ->
  checkType this g =
    Some (false,
          mkGraph (nodes g) (edges g)
            (trace g ++ [EvLogError ("Edge " +:+ EmptyString +:+ " can't go from Node "
                                     +:+ Node_getTypeString (n_type nf) +:+ " to Node "
                                     +:+ Node_getTypeString (n_type nt))])).
Proof.
  intros He Hf Ht Hout.
  rewrite (checkType_run_any g this e nf nt He Hf Ht).
  unfold checkType_result, checkType_message, getTypeString_of.
  now rewrite (EdgeType_of_value_None _ Hout).
Qed.

(** ** Labels *)

(** X3: the labels of [getTypeString] tell the kinds apart: two enumerators
    with the same label are the same kind, and the returned string is empty
    exactly when the argument is none of the enumerators. *)
Theorem getTypeString_labels_distinct :
  (forall a b, getTypeString_of !a = getTypeString_of !b -> a = b) /\
  (forall type, getTypeString_of type = EmptyString <-> forall k, type <> !k).
Proof.
  split.
  - intros a b. rewrite !getTypeString_of_enum.
    destruct a, b; intros H; solve [reflexivity | discriminate H].
  - intros type. split.
    + intros H k ->. rewrite getTypeString_of_enum in H. destruct k; discriminate H.
    + intros H. unfold getTypeString_of. now rewrite EdgeType_of_value_None.
Qed.

(** ** Consequences of the schema *)

(** X4: an edge with a Namespace endpoint passes [checkType] only as a Member
    edge, and a Namespace is accepted as the member only of an Undefined or
    a Namespace node. *)
Theorem checkType_namespace g this e nf nt k g' :
  edges g !! this = Some e ->
  nodes g !! m_from e = Some nf ->
  nodes g !! m_to e = Some nt ->
  m_type e = !k ->
  checkType this g = Some (true, g') ->
  n_type nf = NODE_NAMESPACE \/ n_type nt = NODE_NAMESPACE ->
  k = EDGE_MEMBER /\
  (n_type nt = NODE_NAMESPACE ->
   n_type nf = NODE_UNDEFINED \/ n_type nf = NODE_NAMESPACE).
Proof.
  intros He Hf Ht Hk Hrun Hns.
  rewrite (checkType_run g this e nf nt He Hf Ht k Hk) in Hrun.
  assert (Hok : schema_checked k (n_type nf) (n_type nt) = true) by congruence.
  clear Hrun. revert Hok Hns.
  destruct k, (n_type nf), (n_type nt); vm_compute; intros Hok Hns;
    try discriminate Hok;
    try (destruct Hns as [Hns|Hns]; discriminate Hns);
    (split; [reflexivity|]); intros H; solve [auto | discriminate H].
Qed.

(** X5: a TemplateParameterType node is accepted as the from node only by a
    TemplateParameterOf edge, and as the to node only by a Member edge. *)
Theorem checkType_template_parameter g this e nf nt k g' :
  edges g !! this = Some e ->
  nodes g !! m_from e = Some nf ->
  nodes g !! m_to e = Some nt ->
  m_type e = !k ->
  checkType this g = Some (true, g') ->
  (n_type nf = NODE_TEMPLATE_PARAMETER_TYPE -> k = EDGE_TEMPLATE_PARAMETER_OF) /\
  (n_type nt = NODE_TEMPLATE_PARAMETER_TYPE -> k = EDGE_MEMBER).
Proof.
  intros He Hf Ht Hk Hrun.
  rewrite (checkType_run g this e nf nt He Hf Ht k Hk) in Hrun.
  assert (Hok : schema_checked k (n_type nf) (n_type nt) = true) by congruence.
  clear Hrun. revert Hok.
  destruct k, (n_type nf), (n_type nt); vm_compute; intros Hok;
    try discriminate Hok; split; intros H; solve [reflexivity | discriminate H].
Qed.

(** ** The mask test of an edge *)

Lemma land_lor_positive m a b :
  0 <= m -> (Z.land m (Z.lor a b) >? 0) = (Z.land m a >? 0) || (Z.land m b >? 0).
Proof.
  intros Hm. rewrite Z.land_lor_distr_r.
  assert (Ha : 0 <= Z.land m a) by (apply Z.land_nonneg; auto).
  assert (Hb : 0 <= Z.land m b) by (apply Z.land_nonneg; auto).
  assert (Hab : 0 <= Z.lor (Z.land m a) (Z.land m b)) by (apply Z.lor_nonneg; auto).
  pose proof (Z.lor_eq_0_iff (Z.land m a) (Z.land m b)) as H0.
  destruct (Z.gtb_spec (Z.land m a) 0), (Z.gtb_spec (Z.land m b) 0),
    (Z.gtb_spec (Z.lor (Z.land m a) (Z.land m b)) 0); simpl; try reflexivity; lia.
Qed.

(** X6: for an edge whose [m_type] is not negative, [isType] of a union of
    two masks is the disjunction of [isType] of each, and [isType] of the
    empty mask is false. *)
Theorem isType_union g this e a b :
  edges g !! this = Some e ->
  0 <= m_type e ->
  exists x y,
    isType this a g = Some (x, g) /\
    isType this b g = Some (y, g) /\
    isType this (Z.lor a b) g = Some (x || y, g) /\
    isType this 0 g = Some (false, g).
Proof.
  intros He Hm. exists (Z.land (m_type e) a >? 0), (Z.land (m_type e) b >? 0).
  unfold isType. rewrite !(bind_run _ _ _ _ _ (reads_getEdge _ _ _ He)). unfold ret.
  rewrite land_lor_positive by exact Hm. rewrite Z.land_0_r. auto.
Qed.

(** ** What a successful operation did *)

Lemma allocEdge_inv g this ed u g' :
  allocEdge this ed g = Some (u, g') ->
  edges g !! this = None /\
  g' = mkGraph (nodes g) (<[this := ed]> (edges g)) (trace g).
Proof.
  unfold allocEdge. destruct (edges g !! this); [discriminate|].
  intros H. now inversion H.
Qed.

Lemma Node_addEdge_inv g n e u g' :
  Node_addEdge n e g = Some (u, g') ->
  exists nd, nodes g !! n = Some nd /\
    g' = mkGraph (alter (Node_register e) n (nodes g)) (edges g) (trace g ++ [EvAddEdge n e]).
Proof.
  intros H. destruct (nodes g !! n) as [nd|] eqn:Hn.
  - exists nd. split; [reflexivity|].
    rewrite (Node_addEdge_run g n e nd Hn) in H. now inversion H.
  - unfold Node_addEdge, bind, emit, getNode in H. simpl in H.
    rewrite Hn in H. discriminate H.
Qed.

Lemma Node_removeEdge_inv g n e u g' :
  Node_removeEdge n e g = Some (u, g') ->
  exists nd, nodes g !! n = Some nd /\
    g' = mkGraph (alter (Node_unregister e) n (nodes g)) (edges g)
           (trace g ++ [EvRemoveEdge n e]).
Proof.
  intros H. destruct (nodes g !! n) as [nd|] eqn:Hn.
  - exists nd. split; [reflexivity|].
    rewrite (Node_removeEdge_run g n e nd Hn) in H. now inversion H.
  - unfold Node_removeEdge, bind, emit, getNode in H. simpl in H.
    rewrite Hn in H. discriminate H.
Qed.

(** The registrations of a constructor, read back from its success. *)
Lemma register_both_inv {A} g this from to (rest : M A) a g' :
  preserves nodes rest -> preserves edges rest ->
  (Node_addEdge from this;; Node_addEdge to this;; rest) g = Some (a, g') ->
  (exists nf nt, nodes g !! from = Some nf /\ nodes g !! to = Some nt) /\
  nodes g' = registered this from to (nodes g) /\
  edges g' = edges g.
Proof.
  intros Pn Pe H.
  apply bind_inv in H as (u1 & g1 & H1 & H).
  apply Node_addEdge_inv in H1 as (nf & Hf & ->).
  apply bind_inv in H as (u2 & g2 & H2 & H).
  apply Node_addEdge_inv in H2 as (nt' & Ht' & ->). simpl in Ht'.
  rewrite (Pn _ _ _ H), (Pe _ _ _ H). simpl. repeat split.
  exists nf. destruct (nodes g !! to) as [nt|] eqn:Ht; [eauto|].
  destruct (decide (from = to)) as [->|Hne]; [congruence|].
  rewrite lookup_alter_ne, Ht in Ht' by done. discriminate Ht'.
Qed.

Lemma Edge_new_inv g this id type from to g' :
  Edge_new this id type from to g = Some (tt, g') ->
  edges g !! this = None /\
  (exists nf nt, nodes g !! from = Some nf /\ nodes g !! to = Some nt) /\
  nodes g' = registered this from to (nodes g) /\
  edges g' = <[this := mkEdge (mkToken id []) type from to]> (edges g).
Proof.
  intros H. apply bind_inv in H as (u & g1 & Ha & H).
  apply allocEdge_inv in Ha as (Hfresh & ->).
  apply register_both_inv in H as (Hlive & Hn & He); [auto | frame | frame].
Qed.

Lemma Edge_copy_inv g this other from to g' :
  Edge_copy this other from to g = Some (tt, g') ->
  exists o,
    edges g !! other = Some o /\
    edges g !! this = None /\
    (exists nf nt, nodes g !! from = Some nf /\ nodes g !! to = Some nt) /\
    nodes g' = registered this from to (nodes g) /\
    edges g' = <[this := mkEdge (e_token o) (m_type o) from to]> (edges g).
Proof.
  intros H. apply bind_inv in H as (o & g0 & Ho & H).
  unfold getEdge in Ho. destruct (edges g !! other) as [o'|] eqn:Eo; [|discriminate].
  inversion Ho; subst o' g0. clear Ho.
  apply bind_inv in H as (u & g1 & Ha & H).
  apply allocEdge_inv in Ha as (Hfresh & ->).
  exists o. split; [reflexivity|]. split; [exact Hfresh|].
  apply register_both_inv in H as (Hlive & Hn & He);
    [auto | unfold LOG_ERROR; frame | unfold LOG_ERROR; frame].
Qed.

Lemma Edge_delete_inv g this g' :
  Edge_delete this g = Some (tt, g') ->
  exists e,
    edges g !! this = Some e /\
    nodes g' = unregistered this (m_from e) (m_to e) (nodes g) /\
    edges g' = delete this (edges g).
Proof.
  intros H. apply bind_inv in H as (e & g0 & He & H).
  unfold getEdge in He. destruct (edges g !! this) as [e'|] eqn:Ee; [|discriminate].
  inversion He; subst e' g0. clear He. exists e. split; [reflexivity|].
  apply bind_inv in H as (u1 & g1 & H1 & H).
  apply Node_removeEdge_inv in H1 as (nf & Hf & ->).
  apply bind_inv in H as (u2 & g2 & H2 & H).
  apply Node_removeEdge_inv in H2 as (nt & Ht & ->).
  inversion H. auto.
Qed.

(** A member function either leaves every edge as it is, or attaches one
    component to the edge it is called on, the guard of the attachment
    having let it through. *)
Lemma call_attaches m this g g' :
  call m this g = Some (tt, g') ->
  nodes g' = nodes g /\
  (edges g' = edges g \/
   exists e c, edges g !! this = Some e /\ attachable e c /\
               edges g' = <[this := attached e c]> (edges g)).
Proof.
  intros Hstep. split; [exact (nodes_call m this g tt g' Hstep)|].
  pose proof (edges_call_readonly m this) as Hro.
  destruct m; try (left; exact (Hro _ _ _ Hstep)); simpl in Hstep.
  - destruct (edges g !! this) as [e0|] eqn:He0;
      [|unfold addComponentAggregation, bind, getEdge in Hstep;
        rewrite He0 in Hstep; discriminate].
    rewrite (addComponentAggregation_run g this e0 count He0) in Hstep.
    destruct (getComponentAggregation (t_components (e_token e0))) eqn:Hc;
      [left; exact (edges_emit _ _ _ _ Hstep)|].
    destruct (negb (m_type e0 =? !EDGE_AGGREGATION)) eqn:Hk;
      [left; exact (edges_emit _ _ _ _ Hstep)|].
    rewrite (addComponent_run g this e0 _ He0) in Hstep. inversion Hstep.
    right. exists e0, (TokenComponentAggregation count).
    split; [reflexivity|]. split; [|reflexivity].
    split; [exact Hc|]. now apply negb_false_iff, Z.eqb_eq in Hk.
  - destruct (edges g !! this) as [e0|] eqn:He0;
      [|unfold addComponentAccess, bind, getEdge in Hstep;
        rewrite He0 in Hstep; discriminate].
    rewrite (addComponentAccess_run g this e0 access He0) in Hstep.
    destruct (getComponentAccess (t_components (e_token e0))) eqn:Hc;
      [left; exact (edges_emit _ _ _ _ Hstep)|].
    destruct (negb (m_type e0 =? !EDGE_MEMBER) && negb (m_type e0 =? !EDGE_INHERITANCE))
      eqn:Hk; [left; exact (edges_emit _ _ _ _ Hstep)|].
    rewrite (addComponent_run g this e0 _ He0) in Hstep. inversion Hstep.
    right. exists e0, (TokenComponentAccess access).
    split; [reflexivity|]. split; [|reflexivity].
    split; [exact Hc|].
    apply andb_false_iff in Hk as [Hk|Hk]; apply negb_false_iff, Z.eqb_eq in Hk; auto.
Qed.

(** ** Identity of edges and cardinality of components *)

(** X7: a member function creates and frees no edge and changes neither the
    id, the kind nor the endpoints of any edge; the components an edge
    carries stay, in order, and only the edge the function is called on can
    gain one. *)
Theorem call_keeps_edges m this g g' :
  call m this g = Some (tt, g') ->
  (forall p, edges g !! p = None -> edges g' !! p = None) /\
  (forall p e, edges g !! p = Some e ->
     exists e',
       edges g' !! p = Some e' /\
       m_type e' = m_type e /\ m_from e' = m_from e /\ m_to e' = m_to e /\
       Token_getId (e_token e') = Token_getId (e_token e) /\
       t_components (e_token e) `prefix_of` t_components (e_token e') /\
       (p <> this -> e' = e)).
Proof.
  intros Hstep.
  destruct (call_attaches m this g g' Hstep) as [_ [->|(e0 & c & He0 & _ & ->)]].
  - split; [auto|]. intros p e Hp. exists e. repeat split; auto.
  - split.
    + intros p Hp. rewrite lookup_insert_ne; [exact Hp | congruence].
    + intros p e Hp. destruct (decide (this = p)) as [->|Hne].
      * rewrite lookup_insert_eq. rewrite He0 in Hp. inversion Hp; subst e0.
        eexists. split; [reflexivity|]. simpl. repeat split.
        -- now exists [c].
        -- intros H. now contradiction H.
      * rewrite lookup_insert_ne by exact Hne. exists e. repeat split; auto.
Qed.

Lemma reachable_edge_invariant (P : Edge -> Prop) :
  (forall id type from to, P (mkEdge (mkToken id []) type from to)) ->
  (forall e from to, P e -> P (mkEdge (e_token e) (m_type e) from to)) ->
  (forall e c, attachable e c -> P e -> P (attached e c)) ->
  forall g, reachable g -> forall p e, edges g !! p = Some e -> P e.
Proof.
  intros Hnew Hcopy Hattach g Hr.
  induction Hr as [ns tr|g op g' _ IH Hstep]; intros p e.
  - simpl. now rewrite lookup_empty.
  - destruct op as [this id type from to|this other from to|this|m this]; simpl in Hstep.
    + rewrite (edges_Edge_new _ _ _ _ _ _ _ Hstep), lookup_insert.
      case_decide; [|apply IH]. intros [= <-]. apply Hnew.
    + destruct (edges_Edge_copy _ _ _ _ _ _ Hstep) as (o & Ho & ->).
      rewrite lookup_insert. case_decide; [|apply IH]. intros [= <-].
      apply Hcopy. exact (IH _ _ Ho).
    + rewrite (edges_Edge_delete _ _ _ Hstep), lookup_delete.
      case_decide; [discriminate | apply IH].
    + destruct (call_attaches m this g g' Hstep) as [_ [->|(e0 & c & He0 & Hc & ->)]];
        [apply IH|].
      rewrite lookup_insert. case_decide; [|apply IH]. intros [= <-].
      apply Hattach; [exact Hc | exact (IH _ _ He0)].
Qed.

Lemma count_components_app is_class cs c :
  count_components is_class (cs ++ [c]) =
    (count_components is_class cs + if is_class c then 1 else 0)%nat.
Proof.
  unfold count_components. rewrite List.filter_app, length_app. simpl.
  now destruct (is_class c).
Qed.

Lemma count_access_None cs :
  getComponentAccess cs = None -> count_components isAccess cs = 0%nat.
Proof.
  induction cs as [|[a|n] cs IH]; simpl; [reflexivity | discriminate | exact IH].
Qed.

Lemma count_aggregation_None cs :
  getComponentAggregation cs = None -> count_components isAggregation cs = 0%nat.
Proof.
  induction cs as [|[a|n] cs IH]; simpl; [reflexivity | exact IH | discriminate].
Qed.

(** X8: on every graph built with the constructors, the destructor and the
    member functions, an edge carries at most one Access component and at
    most one Aggregation component. *)
Theorem components_at_most_one g this e :
  reachable g ->
  edges g !! this = Some e ->
  (count_components isAccess (t_components (e_token e)) <= 1)%nat /\
  (count_components isAggregation (t_components (e_token e)) <= 1)%nat.
Proof.
  intros Hr He.
  refine (reachable_edge_invariant
            (fun e => (count_components isAccess (t_components (e_token e)) <= 1)%nat /\
                      (count_components isAggregation (t_components (e_token e)) <= 1)%nat)
            _ _ _ g Hr this e He).
  - intros. simpl. split; apply Nat.le_0_l.
  - intros e0 from to H. exact H.
  - intros e0 [a|n] [Hnone _] [Hacc Hagg]; simpl; rewrite !count_components_app; simpl.
    + rewrite (count_access_None _ Hnone). lia.
    + rewrite (count_aggregation_None _ Hnone). lia.
Qed.

(** ** Consistency of the registration *)

Lemma registered_lookup_inv ns this from to n nd' :
  registered this from to ns !! n = Some nd' ->
  exists nd,
    ns !! n = Some nd /\
    n_edges nd' = if bool_decide (n = from \/ n = to) then n_edges nd ∪ {[ this ]}
                  else n_edges nd.
Proof.
  intros H. destruct (ns !! n) as [nd|] eqn:Hn.
  - destruct (registered_lookup ns this from to n nd Hn) as (nd1 & H1 & _ & _ & _ & _ & E).
    rewrite H1 in H. inversion H; subst nd1. eauto.
  - assert (registered this from to ns !! n = None) as Hnone
      by (unfold registered; now apply lookup_alter_None, lookup_alter_None).
    rewrite Hnone in H. discriminate H.
Qed.

Lemma unregistered_lookup_fields ns this from to n nd :
  ns !! n = Some nd ->
  unregistered this from to ns !! n =
    Some (mkNode (n_token nd) (n_type nd) (n_name nd) (n_fullName nd)
            (if bool_decide (n = from \/ n = to) then n_edges nd ∖ {[ this ]}
             else n_edges nd)).
Proof.
  clear flags_distinct labels_distinct.
  intros H. unfold unregistered.
  destruct (decide (to = n)) as [->|Hto]; destruct (decide (from = n)) as [->|Hfrom];
    repeat (rewrite lookup_alter_eq || rewrite lookup_alter_ne by done);
    rewrite H; simpl; unfold Node_unregister; simpl;
    first [ rewrite bool_decide_eq_true_2 by auto
          | rewrite bool_decide_eq_false_2 by (intros [|]; congruence) ];
    try (now destruct nd);
    do 2 f_equal; apply set_eq; intros x; set_unfold; tauto.
Qed.

Lemma unregistered_lookup_inv ns this from to n nd' :
  unregistered this from to ns !! n = Some nd' ->
  exists nd,
    ns !! n = Some nd /\
    n_edges nd' = if bool_decide (n = from \/ n = to) then n_edges nd ∖ {[ this ]}
                  else n_edges nd.
Proof.
  intros H. destruct (ns !! n) as [nd|] eqn:Hn.
  - rewrite (unregistered_lookup_fields ns this from to n nd Hn) in H.
    inversion H. eauto.
  - assert (unregistered this from to ns !! n = None) as Hnone
      by (unfold unregistered; now apply lookup_alter_None, lookup_alter_None).
    rewrite Hnone in H. discriminate H.
Qed.

(** Registering a new edge keeps the graph consistent. *)
Lemma consistent_register g g' this ed :
  consistent g ->
  edges g !! this = None ->
  (exists nf nt, nodes g !! m_from ed = Some nf /\ nodes g !! m_to ed = Some nt) ->
  nodes g' = registered this (m_from ed) (m_to ed) (nodes g) ->
  edges g' = <[this := ed]> (edges g) ->
  consistent g'.
Proof.
  intros [Hreg Hlive] Hfresh (nf & nt & Hf & Ht) Hn He. split.
  - intros p e Hp. rewrite He in Hp. rewrite Hn.
    destruct (decide (this = p)) as [<-|Hne].
    + rewrite lookup_insert_eq in Hp. inversion Hp; subst e.
      destruct (registered_endpoints (nodes g) this _ _ nf nt Hf Ht)
        as (nf' & nt' & Hf' & If & _ & Ht' & It & _).
      exists nf', nt'. auto.
    + rewrite lookup_insert_ne in Hp by exact Hne.
      destruct (Hreg p e Hp) as (nf0 & nt0 & Hf0 & If0 & Ht0 & It0).
      destruct (registered_lookup (nodes g) this (m_from ed) (m_to ed) _ _ Hf0)
        as (nf' & Hf' & _ & _ & _ & _ & Ef).
      destruct (registered_lookup (nodes g) this (m_from ed) (m_to ed) _ _ Ht0)
        as (nt' & Ht' & _ & _ & _ & _ & Et).
      assert (Hgrow : forall (b : bool) (s : gset positive),
                 p ∈ s -> p ∈ (if b then s ∪ {[ this ]} else s)).
      { intros [] s Hin; [|exact Hin]. apply elem_of_union. now left. }
      exists nf', nt'. rewrite Ef, Et. auto.
  - intros n nd' p Hnd Hp. rewrite Hn in Hnd. rewrite He.
    destruct (registered_lookup_inv _ _ _ _ _ _ Hnd) as (nd & Hnd0 & E).
    rewrite E in Hp.
    assert (Hold : p ∈ n_edges nd ->
              exists e, <[this := ed]> (edges g) !! p = Some e /\ (m_from e = n \/ m_to e = n)).
    { intros Hin. destruct (Hlive n nd p Hnd0 Hin) as (e & Hpe & Hend).
      exists e. split; [|exact Hend].
      rewrite lookup_insert_ne; [exact Hpe | congruence]. }
    case_bool_decide as Hend; [|now apply Hold].
    apply elem_of_union in Hp as [Hp|Hp]; [now apply Hold|].
    apply elem_of_singleton in Hp as ->.
    exists ed. rewrite lookup_insert_eq. split; [reflexivity|].
    destruct Hend; auto.
Qed.

(** Unregistering a live edge and freeing it keeps the graph consistent. *)
Lemma consistent_unregister g g' this e :
  consistent g ->
  edges g !! this = Some e ->
  nodes g' = unregistered this (m_from e) (m_to e) (nodes g) ->
  edges g' = delete this (edges g) ->
  consistent g'.
Proof.
  intros [Hreg Hlive] Hthis Hn He. split.
  - intros p e0 Hp. rewrite He in Hp. rewrite Hn.
    destruct (decide (this = p)) as [<-|Hne];
      [rewrite lookup_delete_eq in Hp; discriminate Hp|].
    rewrite lookup_delete_ne in Hp by exact Hne.
    destruct (Hreg p e0 Hp) as (nf0 & nt0 & Hf0 & If0 & Ht0 & It0).
    rewrite (unregistered_lookup_fields _ this (m_from e) (m_to e) _ _ Hf0).
    rewrite (unregistered_lookup_fields _ this (m_from e) (m_to e) _ _ Ht0).
    assert (Hkeep : forall (b : bool) (s : gset positive),
               p ∈ s -> p ∈ (if b then s ∖ {[ this ]} else s)).
    { intros [] s Hin; [|exact Hin]. apply elem_of_difference. split; [exact Hin|].
      rewrite elem_of_singleton. congruence. }
    eexists. eexists. split; [reflexivity|]. split; [|split; [reflexivity|]]; simpl;
      now apply Hkeep.
  - intros n nd' p Hnd Hp. rewrite Hn in Hnd. rewrite He.
    destruct (unregistered_lookup_inv _ _ _ _ _ _ Hnd) as (nd & Hnd0 & E).
    rewrite E in Hp.
    assert (Hin : p ∈ n_edges nd).
    { case_bool_decide; [|exact Hp]. now apply elem_of_difference in Hp as [Hp _]. }
    destruct (Hlive n nd p Hnd0 Hin) as (e0 & Hpe & Hend).
    destruct (decide (this = p)) as [<-|Hne].
    + exfalso. rewrite Hthis in Hpe. inversion Hpe; subst e0.
      rewrite bool_decide_eq_true_2 in Hp by (destruct Hend; auto).
      apply elem_of_difference in Hp as [_ Hp]. apply Hp. now apply elem_of_singleton.
    + exists e0. rewrite lookup_delete_ne by exact Hne. auto.
Qed.

Lemma consistent_call m this g g' :
  consistent g -> call m this g = Some (tt, g') -> consistent g'.
Proof.
  intros [Hreg Hlive] Hstep.
  destruct (call_attaches m this g g' Hstep) as [Hn [He|(e0 & c & He0 & _ & He)]].
  - split.
    + intros p e Hp. rewrite He in Hp. rewrite Hn. exact (Hreg p e Hp).
    + intros n nd p Hnd Hp. rewrite Hn in Hnd. rewrite He. exact (Hlive n nd p Hnd Hp).
  - split.
    + intros p e Hp. rewrite He in Hp. rewrite Hn.
      destruct (decide (this = p)) as [<-|Hne].
      * rewrite lookup_insert_eq in Hp. inversion Hp; subst e. simpl.
        exact (Hreg this e0 He0).
      * rewrite lookup_insert_ne in Hp by exact Hne. exact (Hreg p e Hp).
    + intros n nd p Hnd Hp. rewrite Hn in Hnd. rewrite He.
      destruct (Hlive n nd p Hnd Hp) as (e & Hpe & Hend).
      destruct (decide (this = p)) as [<-|Hne].
      * rewrite lookup_insert_eq. rewrite He0 in Hpe. inversion Hpe; subst e0.
        eexists. split; [reflexivity|]. exact Hend.
      * rewrite lookup_insert_ne by exact Hne. eauto.
Qed.

(** X9: every operation on edges keeps the graph consistent: afterwards
    every live edge is still listed by both of its live endpoints, and every
    entry of an incidence set is still a live edge ending at that node. *)
Theorem exec_consistent op g g' :
  consistent g -> exec op g = Some (tt, g') -> consistent g'.
Proof.
  intros Hc Hstep.
  destruct op as [this id type from to|this other from to|this|m this]; simpl in Hstep.
  - destruct (Edge_new_inv _ _ _ _ _ _ _ Hstep) as (Hfresh & Hlive & Hn & He).
    exact (consistent_register g g' this (mkEdge (mkToken id []) type from to)
             Hc Hfresh Hlive Hn He).
  - destruct (Edge_copy_inv _ _ _ _ _ _ Hstep) as (o & _ & Hfresh & Hlive & Hn & He).
    exact (consistent_register g g' this (mkEdge (e_token o) (m_type o) from to)
             Hc Hfresh Hlive Hn He).
  - destruct (Edge_delete_inv _ _ _ Hstep) as (e & Hthis & Hn & He).
    exact (consistent_unregister g g' this e Hc Hthis Hn He).
  - exact (consistent_call m this g g' Hc Hstep).
Qed.

(** X10: on a consistent graph the destructor of a live edge never reaches a
    dead node: it returns, frees exactly that edge, leaves every other edge
    as it is, and the graph is consistent again. *)
Theorem Edge_delete_safe g this e :
  consistent g ->
  edges g !! this = Some e ->
  exists g',
    Edge_delete this g = Some (tt, g') /\
    edges g' = delete this (edges g) /\
    consistent g'.
Proof.
  intros Hc He.
  destruct (proj1 Hc this e He) as (nf & nt & Hf & _ & Ht & _).
  eexists. split; [exact (Edge_delete_run g this e nf nt He Hf Ht)|].
  split; [reflexivity|].
  now apply (consistent_unregister g _ this e Hc He).
Qed.

(** ** Construction followed by destruction *)

Lemma unregister_registered ns this from to nf nt :
  ns !! from = Some nf ->
  ns !! to = Some nt ->
  this ∉ n_edges nf ->
  this ∉ n_edges nt ->
  unregistered this from to (registered this from to ns) = ns.
Proof.
  intros Hf Ht Nf Nt. apply map_eq. intros n.
  destruct (ns !! n) as [nd|] eqn:Hn.
  - destruct (registered_lookup ns this from to n nd Hn)
      as (nd1 & H1 & Tk & Ty & Nm & Fn & E1).
    rewrite (unregistered_lookup_fields _ this from to n nd1 H1).
    rewrite Tk, Ty, Nm, Fn, E1. f_equal.
    assert (Hfresh : bool_decide (n = from \/ n = to) = true -> this ∉ n_edges nd).
    { intros [->| ->]%bool_decide_eq_true; congruence. }
    destruct nd as [tk ty nm fn es]; simpl in *. f_equal.
    destruct (bool_decide (n = from \/ n = to)); [|reflexivity].
    specialize (Hfresh eq_refl).
    apply set_eq. intros x. rewrite elem_of_difference, elem_of_union, elem_of_singleton.
    split; [tauto|]. intros Hx. split; [now left|]. intros ->. contradiction.
  - unfold unregistered, registered.
    now apply lookup_alter_None, lookup_alter_None, lookup_alter_None, lookup_alter_None.
Qed.

(** X11: constructing an edge and destroying it again gives back the nodes
    and the edges of the graph as they were, provided the address was not
    already listed by an endpoint; the calls made are the two registrations,
    the diagnostic of the check if any, then the two removals, each pair
    with the from node first. *)
Theorem Edge_new_delete_roundtrip g this id k from to nf nt :
  edges g !! this = None ->
  nodes g !! from = Some nf ->
  nodes g !! to = Some nt ->
  this ∉ n_edges nf ->
  this ∉ n_edges nt ->
  exists g1 g2 diag,
    Edge_new this id !k from to g = Some (tt, g1) /\
    Edge_delete this g1 = Some (tt, g2) /\
    nodes g2 = nodes g /\
    edges g2 = edges g /\
    trace g2 = trace g ++ [EvAddEdge from this; EvAddEdge to this] ++ map EvLogError diag
                 ++ [EvRemoveEdge from this; EvRemoveEdge to this].
Proof.
  intros Hfresh Hf Ht Nf Nt.
  destruct (registered_endpoints (nodes g) this from to nf nt Hf Ht)
    as (nf' & nt' & Hf' & _ & _ & Ht' & _ & _).
  eexists. eexists.
  exists (if schema_checked k (n_type nf) (n_type nt) then []
          else [checkType_message !k (n_type nf) (n_type nt)]).
  split; [exact (Edge_new_run g this id k from to nf nt Hfresh Hf Ht)|].
  split.
  - match goal with
    | |- Edge_delete this ?G = _ =>
        refine (Edge_delete_run G this (mkEdge (mkToken id []) !k from to) nf' nt'
                  _ Hf' Ht')
    end.
    apply lookup_insert_eq.
  - simpl. split; [exact (unregister_registered _ this from to nf nt Hf Ht Nf Nt)|].
    split; [rewrite delete_insert_eq; now apply delete_id|].
    rewrite <- !app_assoc. now destruct (schema_checked k (n_type nf) (n_type nt)).
Qed.

(** X12: the constructor returns exactly when the address is free and both
    endpoint pointers refer to live nodes, whatever integer the kind is. *)
Theorem Edge_new_defined g this id type from to :
  is_Some (Edge_new this id type from to g) <->
  edges g !! this = None /\ is_Some (nodes g !! from) /\ is_Some (nodes g !! to).
Proof.
  split.
  - intros [[[] g'] H].
    destruct (Edge_new_inv _ _ _ _ _ _ _ H) as (Hfresh & (nf & nt & Hf & Ht) & _).
    rewrite Hf, Ht. eauto.
  - intros (Hfresh & [nf Hf] & [nt Ht]).
    destruct (registered_endpoints (nodes g) this from to nf nt Hf Ht)
      as (nf' & nt' & Hf' & _ & _ & Ht' & _ & _).
    unfold Edge_new.
    rewrite (bind_run _ _ _ _ _ (allocEdge_run g this _ Hfresh)).
    rewrite (register_both_run
               (mkGraph (nodes g) (<[this := mkEdge (mkToken id []) type from to]> (edges g))
                  (trace g))
               this from to nf nt _ Hf Ht). simpl.
    match goal with
    | |- is_Some ((checkType this;; ret tt) ?G) =>
        rewrite (bind_run _ _ _ _ _
                   (checkType_run_any G this (mkEdge (mkToken id []) type from to) nf' nt'
                      (lookup_insert_eq _ _ _) Hf' Ht'))
    end.
    unfold ret. eauto.
Qed.

(** ** Attaching a component, then rendering *)

Lemma rendering_access id label fromName toName a :
  rendering id label fromName toName (Some a) None =
    rendering id label fromName toName None None +:+ " " +:+ getAccessString a.
Proof. unfold rendering. rewrite !append_assoc, ?append_empty. reflexivity. Qed.

Lemma rendering_aggregation id label fromName toName n :
  rendering id label fromName toName None (Some n) =
    rendering id label fromName toName None None +:+ " " +:+ decimal n.
Proof. unfold rendering. rewrite !append_assoc, ?append_empty. reflexivity. Qed.

(** X13: on an edge without components, a successful attachment shows in the
    rendering as one more word: after [addComponentAccess] on a Member or
    Inheritance edge [getAsString] returns the former string followed by a
    space and the access label, and after [addComponentAggregation] on an
    Aggregation edge the former string followed by a space and the count. *)
Theorem attach_then_getAsString g this e nf nt k :
  edges g !! this = Some e ->
  nodes g !! m_from e = Some nf ->
  nodes g !! m_to e = Some nt ->
  m_type e = !k ->
  t_components (e_token e) = [] ->
  exists s,
    getAsString this g = Some (s, g) /\
    (k = EDGE_MEMBER \/ k = EDGE_INHERITANCE ->
     forall access, exists g',
       addComponentAccess this access g = Some (tt, g') /\
       getAsString this g' = Some (s +:+ " " +:+ getAccessString access, g')) /\
    (k = EDGE_AGGREGATION ->
     forall count, exists g',
       addComponentAggregation this count g = Some (tt, g') /\
       getAsString this g' = Some (s +:+ " " +:+ decimal count, g')).
Proof.
  intros He Hf Ht Hk Hc. eexists.
  split; [exact (getAsString_run g this e nf nt k He Hf Ht Hk)|].
  rewrite Hc. simpl. split.
  - intros Hkind access.
    rewrite (addComponentAccess_run g this e access He), Hc. simpl.
    assert (Hguard : negb (m_type e =? !EDGE_MEMBER) && negb (m_type e =? !EDGE_INHERITANCE)
                     = false).
    { rewrite Hk, !EdgeType_value_eqb. now destruct Hkind as [-> | ->]. }
    rewrite Hguard, (addComponent_run g this e _ He).
    eexists. split; [reflexivity|].
    match goal with
    | |- getAsString this ?G = _ =>
        rewrite (getAsString_run G this (attached e (TokenComponentAccess access)) nf nt k
                   (lookup_insert_eq _ _ _) Hf Ht Hk)
    end.
    simpl. rewrite Hc. simpl. now rewrite rendering_access.
  - intros -> count.
    rewrite (addComponentAggregation_run g this e count He), Hc. simpl.
    rewrite Hk, Z.eqb_refl. simpl. rewrite (addComponent_run g this e _ He).
    eexists. split; [reflexivity|].
    match goal with
    | |- getAsString this ?G = _ =>
        rewrite (getAsString_run G this (attached e (TokenComponentAggregation count)) nf nt
                   EDGE_AGGREGATION (lookup_insert_eq _ _ _) Hf Ht Hk)
    end.
    simpl. rewrite Hc. simpl. now rewrite rendering_aggregation.
Qed.

(** ** The reports of the copy constructor *)

(** X14: the copy constructor reports at most two diagnostics, after the two
    registrations: first that the nodes are not plain copies, when that is
    so, then the report of the schema check, when the check fails.  Cloning
    onto distinct nodes with the ids of the originals, of kinds the schema
    accepts, reports nothing. *)
Theorem Edge_copy_reports g this other o from to nf nt onf ont k :
  edges g !! this = None ->
  edges g !! other = Some o ->
  m_type o = !k ->
  nodes g !! from = Some nf ->
  nodes g !! to = Some nt ->
  nodes g !! m_from o = Some onf ->
  nodes g !! m_to o = Some ont ->
  exists g' diag,
    Edge_copy this other from to g = Some (tt, g') /\
    trace g' = trace g ++ [EvAddEdge from this; EvAddEdge to this] ++ map EvLogError diag /\
    diag = (if not_plain_copies o from to nf nt onf ont
            then ["Nodes are not plain copies."] else []) ++
           (if schema_checked k (n_type nf) (n_type nt) then []
            else [checkType_message !k (n_type nf) (n_type nt)]) /\
    (from <> m_from o -> to <> m_to o ->
     Node_getId nf = Node_getId onf -> Node_getId nt = Node_getId ont ->
     schema_checked k (n_type nf) (n_type nt) = true ->
     diag = []).
Proof.
  intros Hfresh Ho Hk Hf Ht Hof Hot.
  eexists. eexists.
  split; [exact (Edge_copy_run g this other o from to nf nt onf ont k
                   Hfresh Ho Hk Hf Ht Hof Hot)|].
  split; [|split; [reflexivity|]].
  - simpl. rewrite <- !app_assoc. simpl.
    now destruct (not_plain_copies o from to nf nt onf ont),
                 (schema_checked k (n_type nf) (n_type nt)).
  - intros Nf Nt If It ->.
    destruct (not_plain_copies o from to nf nt onf ont) eqn:Hc; [|reflexivity].
    apply not_plain_copies_true in Hc. tauto.
Qed.

End EdgeModel.

(** ** The model on the example graph *)

Lemma example_flags_distinct : distinct_flags example_bit.
Proof. intros [] [] H; solve [reflexivity | discriminate H]. Qed.

Lemma example_labels_distinct : distinct_labels example_value.
Proof. intros [] [] H; solve [reflexivity | discriminate H]. Qed.

(** The member edge from class [A] to field [A::b] passes [checkType], while
    the Member row of the table, read with its to column, has no Field
    as [to]: the claim C1 as stated fails here. *)
Lemma checkType_member_field :
  checkType example_bit example_value example_label 10 example_graph
    = Some (true, example_graph) /\
  schema_table EDGE_MEMBER NODE_CLASS NODE_FIELD = false.
Proof. split; vm_compute; reflexivity. Qed.

Lemma checkType_schema_example :
  exists g', checkType example_bit example_value example_label 10 example_graph
             = Some (true, g').
Proof.
  exact (proj1 (checkType_schema example_bit example_value example_label
                  example_flags_distinct example_labels_distinct
                  example_graph 10 example_member
                  (example_node 1 NODE_CLASS "A" {[ 10%positive ]})
                  (example_node 2 NODE_FIELD "A::b" {[ 10%positive ]})
                  EDGE_MEMBER eq_refl eq_refl eq_refl eq_refl)).
Defined.

Lemma getTypeString_total_example :
  getTypeString_of example_value 0x20 = "inheritance" /\
  getTypeString_of example_value 3 = EmptyString.
Proof.
  split.
  - exact (proj1 (proj2 (getTypeString_total example_value example_labels_distinct 0x20))
             EDGE_INHERITANCE eq_refl).
  - apply (proj2 (proj2 (getTypeString_total example_value example_labels_distinct 3))).
    intros [] H; discriminate H.
Defined.

Lemma getName_format_example :
  getName example_value 10 example_graph = Some ("child:A->A::b", example_graph).
Proof.
  exact (getName_format example_value example_labels_distinct
           example_graph 10 example_member
           (example_node 1 NODE_CLASS "A" {[ 10%positive ]})
           (example_node 2 NODE_FIELD "A::b" {[ 10%positive ]})
           EDGE_MEMBER eq_refl eq_refl eq_refl eq_refl).
Defined.

Lemma getAsString_format_example :
  getAsString example_value 10 (example_graph_of example_member_public) =
    Some ("[7] child: " +:+ dquote +:+ "A" +:+ dquote +:+ " -> "
          +:+ dquote +:+ "A::b" +:+ dquote +:+ " public",
          example_graph_of example_member_public).
Proof.
  exact (proj2 (getAsString_format example_value example_labels_distinct
                  (example_graph_of example_member_public) 10 example_member_public
                  (example_node 1 NODE_CLASS "A" {[ 10%positive ]})
                  (example_node 2 NODE_FIELD "A::b" {[ 10%positive ]})
                  EDGE_MEMBER eq_refl eq_refl eq_refl eq_refl)
           eq_refl eq_refl eq_refl eq_refl).
Defined.

(** A Call edge from a class to a field breaks the schema: the edge is made
    and registered, and one diagnostic is reported. *)
Lemma Edge_new_registers_example :
  exists g' diag,
    Edge_new example_bit example_value example_label 10 7 (example_value EDGE_CALL) 1 2
      example_start = Some (tt, g') /\
    trace g' = [EvAddEdge 1%positive 10%positive; EvAddEdge 2%positive 10%positive]
               ++ map EvLogError diag /\
    length diag = 1%nat /\
    edges g' !! 10%positive = Some (mkEdge (mkToken 7 []) (example_value EDGE_CALL) 1 2).
Proof.
  destruct (Edge_new_registers example_bit example_value example_label
              example_flags_distinct example_labels_distinct
              example_start 10 7 EDGE_CALL 1 2
              (example_node 1 NODE_CLASS "A" ∅) (example_node 2 NODE_FIELD "A::b" ∅)
              eq_refl eq_refl eq_refl) as (g' & diag & Hrun & Htr & Hlen & He & _).
  exists g', diag. auto.
Defined.

Lemma registration_invariant_example :
  exists g' nf' nt',
    Edge_new example_bit example_value example_label 10 7 (example_value EDGE_MEMBER) 1 2
      example_start = Some (tt, g') /\
    nodes g' !! 1%positive = Some nf' /\ occurrences 10 (n_edges nf') = 1%nat /\
    nodes g' !! 2%positive = Some nt' /\ occurrences 10 (n_edges nt') = 1%nat.
Proof.
  exact (proj1 (registration_invariant example_bit example_value example_label
                  example_flags_distinct example_labels_distinct)
           example_start 10%positive 7%N EDGE_MEMBER 1%positive 2%positive
           (example_node 1 NODE_CLASS "A" ∅) (example_node 2 NODE_FIELD "A::b" ∅)
           eq_refl eq_refl eq_refl).
Defined.

Lemma addComponentAggregation_guard_example :
  exists g',
    addComponentAggregation example_value 10 3 (example_graph_of example_aggregation)
      = Some (tt, g') /\
    edges g' =
      <[10%positive := mkEdge (mkToken 8 [TokenComponentAggregation 3])
                         (example_value EDGE_AGGREGATION) 1 2]>
        (edges (example_graph_of example_aggregation)) /\
    trace g' = [].
Proof.
  destruct (addComponentAggregation_guard example_value example_labels_distinct
              (example_graph_of example_aggregation) 10 example_aggregation
              EDGE_AGGREGATION 3 eq_refl eq_refl) as (g' & Hrun & _ & Hok & _).
  destruct (Hok (conj eq_refl eq_refl)) as (e' & -> & He & _ & Htr & _).
  exists g'. auto.
Defined.

Lemma addComponentAccess_guard_example :
  exists g',
    addComponentAccess example_value 10 ACCESS_PUBLIC example_graph = Some (tt, g') /\
    edges g' = <[10%positive := example_member_public]> (edges example_graph) /\
    trace g' = [].
Proof.
  destruct (addComponentAccess_guard example_value example_labels_distinct
              example_graph 10 example_member EDGE_MEMBER ACCESS_PUBLIC
              eq_refl eq_refl) as (g' & Hrun & _ & Hok & _).
  destruct (Hok (conj eq_refl (or_introl eq_refl))) as (e' & -> & He & _ & Htr).
  exists g'. auto.
Defined.

(** Cloning the member edge onto the plain copies of its endpoints. *)
Lemma Edge_copy_diagnostic_example :
  exists g' evs,
    Edge_copy example_bit example_value example_label 11 10 5 6 example_graph
      = Some (tt, g') /\
    edges g' !! 11%positive = Some (mkEdge (mkToken 7 []) (example_value EDGE_MEMBER) 5 6) /\
    trace g' = evs /\
    ("Nodes are not plain copies." ∈ errors evs <->
     5%positive = 1%positive \/ 6%positive = 2%positive \/ 1%N <> 1%N \/ 2%N <> 2%N).
Proof.
  destruct (Edge_copy_diagnostic example_bit example_value example_label
              example_flags_distinct example_labels_distinct
              example_graph 11 10 example_member 5 6
              (example_node 1 NODE_CLASS "A" ∅) (example_node 2 NODE_FIELD "A::b" ∅)
              (example_node 1 NODE_CLASS "A" {[ 10%positive ]})
              (example_node 2 NODE_FIELD "A::b" {[ 10%positive ]})
              EDGE_MEMBER eq_refl eq_refl eq_refl eq_refl eq_refl eq_refl eq_refl)
    as (g' & evs & Hrun & He & _ & Htr & Hiff).
  exists g', evs. auto.
Defined.

Lemma components_exclusive_example :
  hasAccess example_member_public && hasAggregation example_member_public = false.
Proof.
  refine (proj2 (proj2 (components_exclusive example_bit example_value example_label
                          example_labels_distinct _ 10 example_member_public _ _))).
  - eapply (reachable_step _ _ _ _ (OpCall (Call_addComponentAccess ACCESS_PUBLIC) 10)).
    + eapply (reachable_step _ _ _ _
                (OpNew 10 7 (example_value EDGE_MEMBER) 1 2)).
      * apply (reachable_init _ _ _ (example_nodes ∅) []).
      * vm_compute. reflexivity.
    + vm_compute. reflexivity.
  - vm_compute. reflexivity.
Defined.

(** ** Further properties on the example graph *)

Lemma example_graph_consistent : consistent example_graph.
Proof.
  split.
  - intros p e Hp. unfold example_graph, example_graph_of in Hp. simpl in Hp.
    apply lookup_singleton_Some in Hp as [<- <-].
    exists (example_node 1 NODE_CLASS "A" {[ 10%positive ]}),
           (example_node 2 NODE_FIELD "A::b" {[ 10%positive ]}).
    repeat split; try reflexivity; now apply elem_of_singleton.
  - intros n nd p Hnd Hp. unfold example_graph, example_graph_of, example_nodes in Hnd.
    simpl in Hnd.
    assert (Hedge : p = 10%positive ->
              exists e, edges example_graph !! p = Some e /\ (m_from e = 1%positive \/ m_to e = 1%positive) /\
                        (m_from e = 2%positive \/ m_to e = 2%positive)).
    { intros ->. exists example_member. repeat split; auto. }
    repeat (rewrite lookup_insert in Hnd; case_decide;
            [ subst n; inversion Hnd; subst nd; simpl in Hp | ]);
      try (apply elem_of_singleton in Hp;
           destruct (Hedge Hp) as (e & He & H1 & H2); now exists e);
      try (now apply not_elem_of_empty in Hp).
    rewrite lookup_empty in Hnd. discriminate Hnd.
Qed.

Lemma checkType_reports_iff_false_example :
  exists b g',
    checkType example_bit example_value example_label 10 (example_graph_of example_unknown)
      = Some (b, g') /\
    nodes g' = nodes (example_graph_of example_unknown) /\
    edges g' = edges (example_graph_of example_unknown).
Proof.
  destruct (checkType_reports_iff_false example_bit example_value example_label
              example_flags_distinct example_labels_distinct
              (example_graph_of example_unknown) 10 example_unknown
              (example_node 1 NODE_CLASS "A" {[ 10%positive ]})
              (example_node 2 NODE_FIELD "A::b" {[ 10%positive ]})
              eq_refl eq_refl eq_refl) as (b & g' & Hrun & Hn & He & _).
  exists b, g'. auto.
Defined.

Lemma checkType_unknown_type_example :
  checkType example_bit example_value example_label 10 (example_graph_of example_unknown)
    = Some (false,
            mkGraph (nodes (example_graph_of example_unknown))
              (edges (example_graph_of example_unknown))
              [EvLogError "Edge  can't go from Node class to Node field"]).
Proof.
  refine (checkType_unknown_type example_bit example_value example_label
            example_flags_distinct example_labels_distinct
            (example_graph_of example_unknown) 10 example_unknown
            (example_node 1 NODE_CLASS "A" {[ 10%positive ]})
            (example_node 2 NODE_FIELD "A::b" {[ 10%positive ]})
            eq_refl eq_refl eq_refl _).
  intros [] H; discriminate H.
Defined.

Lemma getTypeString_labels_distinct_example :
  getTypeString_of example_value 3 = EmptyString.
Proof.
  apply (proj2 (getTypeString_labels_distinct example_value example_labels_distinct) 3).
  intros [] H; discriminate H.
Defined.

Lemma checkType_namespace_example : EDGE_MEMBER = EDGE_MEMBER.
Proof.
  refine (proj1 (checkType_namespace example_bit example_value example_label
           example_flags_distinct example_labels_distinct
           (example_graph_of example_namespace_member) 10 example_namespace_member
           (example_node 4 NODE_NAMESPACE "ns" ∅)
           (example_node 1 NODE_CLASS "A" {[ 10%positive ]})
           EDGE_MEMBER (example_graph_of example_namespace_member)
           eq_refl eq_refl eq_refl eq_refl eq_refl (or_introl eq_refl))).
Defined.

Lemma checkType_template_parameter_example :
  EDGE_TEMPLATE_PARAMETER_OF = EDGE_TEMPLATE_PARAMETER_OF.
Proof.
  refine (proj1 (checkType_template_parameter example_bit example_value example_label
           example_flags_distinct example_labels_distinct
           example_template_graph 10
           (mkEdge (mkToken 7 []) (example_value EDGE_TEMPLATE_PARAMETER_OF) 1 2)
           (example_node 1 NODE_TEMPLATE_PARAMETER_TYPE "T" {[ 10%positive ]})
           (example_node 2 NODE_CLASS "A" {[ 10%positive ]})
           EDGE_TEMPLATE_PARAMETER_OF example_template_graph
           eq_refl eq_refl eq_refl eq_refl eq_refl) eq_refl).
Defined.

Lemma isType_union_example :
  exists x y,
    isType 10 0x1 example_graph = Some (x, example_graph) /\
    isType 10 0x20 example_graph = Some (y, example_graph) /\
    isType 10 (Z.lor 0x1 0x20) example_graph = Some (x || y, example_graph) /\
    isType 10 0 example_graph = Some (false, example_graph).
Proof.
  apply (isType_union example_graph 10 example_member 0x1 0x20 eq_refl).
  vm_compute. discriminate.
Defined.

Lemma call_keeps_edges_example :
  exists e',
    edges (example_graph_of example_member_public) !! 10%positive = Some e' /\
    m_type e' = m_type example_member /\
    t_components (e_token example_member) `prefix_of` t_components (e_token e').
Proof.
  destruct (proj2 (call_keeps_edges example_bit example_value example_label
                     (Call_addComponentAccess ACCESS_PUBLIC) 10
                     example_graph (example_graph_of example_member_public) eq_refl)
              10%positive example_member eq_refl)
    as (e' & He' & Hty & _ & _ & _ & Hpre & _).
  exists e'. auto.
Defined.

Lemma components_at_most_one_example :
  (count_components isAccess (t_components (e_token example_member_public)) <= 1)%nat /\
  (count_components isAggregation (t_components (e_token example_member_public)) <= 1)%nat.
Proof.
  refine (components_at_most_one example_bit example_value example_label
            _ 10 example_member_public _ _).
  - eapply (reachable_step _ _ _ _ (OpCall (Call_addComponentAccess ACCESS_PUBLIC) 10)).
    + eapply (reachable_step _ _ _ _
                (OpNew 10 7 (example_value EDGE_MEMBER) 1 2)).
      * apply (reachable_init _ _ _ (example_nodes ∅) []).
      * vm_compute. reflexivity.
    + vm_compute. reflexivity.
  - vm_compute. reflexivity.
Defined.

Lemma exec_consistent_example :
  consistent (example_graph_of example_member_public).
Proof.
  exact (exec_consistent example_bit example_value example_label
           (OpCall (Call_addComponentAccess ACCESS_PUBLIC) 10)
           example_graph (example_graph_of example_member_public)
           example_graph_consistent eq_refl).
Defined.

Lemma Edge_delete_safe_example :
  exists g',
    Edge_delete 10 example_graph = Some (tt, g') /\
    edges g' = delete 10%positive (edges example_graph) /\
    consistent g'.
Proof.
  exact (Edge_delete_safe example_graph 10 example_member
           example_graph_consistent eq_refl).
Defined.

Lemma Edge_new_delete_roundtrip_example :
  exists g1 g2 diag,
    Edge_new example_bit example_value example_label 10 7 (example_value EDGE_CALL) 1 2
      example_start = Some (tt, g1) /\
    Edge_delete 10 g1 = Some (tt, g2) /\
    nodes g2 = nodes example_start /\
    edges g2 = edges example_start /\
    trace g2 = [EvAddEdge 1%positive 10%positive; EvAddEdge 2%positive 10%positive]
                 ++ map EvLogError diag
                 ++ [EvRemoveEdge 1%positive 10%positive; EvRemoveEdge 2%positive 10%positive].
Proof.
  refine (Edge_new_delete_roundtrip example_bit example_value example_label
            example_flags_distinct example_labels_distinct
            example_start 10%positive 7%N EDGE_CALL 1%positive 2%positive
            (example_node 1 NODE_CLASS "A" ∅) (example_node 2 NODE_FIELD "A::b" ∅)
            eq_refl eq_refl eq_refl _ _); simpl; apply not_elem_of_empty.
Defined.

Lemma Edge_new_defined_example :
  is_Some (Edge_new example_bit example_value example_label 10 7 3 1 2 example_start) /\
  ~ is_Some (Edge_new example_bit example_value example_label 10 7 3 1 9 example_start).
Proof.
  pose proof (Edge_new_defined example_bit example_value example_label
                example_flags_distinct example_labels_distinct) as H.
  split.
  - apply H. split; [reflexivity|]. split; eexists; reflexivity.
  - intros Hs. apply H in Hs as (_ & _ & [nd Hnd]). discriminate Hnd.
Defined.

Lemma attach_then_getAsString_example :
  exists s g',
    getAsString example_value 10 example_graph = Some (s, example_graph) /\
    addComponentAccess example_value 10 ACCESS_PUBLIC example_graph = Some (tt, g') /\
    getAsString example_value 10 g' = Some (s +:+ " public", g').
Proof.
  destruct (attach_then_getAsString example_value example_labels_distinct
              example_graph 10 example_member
              (example_node 1 NODE_CLASS "A" {[ 10%positive ]})
              (example_node 2 NODE_FIELD "A::b" {[ 10%positive ]})
              EDGE_MEMBER eq_refl eq_refl eq_refl eq_refl eq_refl)
    as (s & Hs & Hacc & _).
  destruct (Hacc (or_introl eq_refl) ACCESS_PUBLIC) as (g' & Hadd & Hstr).
  exists s, g'. auto.
Defined.

Lemma Edge_copy_reports_example :
  exists g',
    Edge_copy example_bit example_value example_label 11 10 5 6 example_graph
      = Some (tt, g') /\
    trace g' = [EvAddEdge 5%positive 11%positive; EvAddEdge 6%positive 11%positive].
Proof.
  destruct (Edge_copy_reports example_bit example_value example_label
              example_flags_distinct example_labels_distinct
              example_graph 11 10 example_member 5 6
              (example_node 1 NODE_CLASS "A" ∅) (example_node 2 NODE_FIELD "A::b" ∅)
              (example_node 1 NODE_CLASS "A" {[ 10%positive ]})
              (example_node 2 NODE_FIELD "A::b" {[ 10%positive ]})
              EDGE_MEMBER eq_refl eq_refl eq_refl eq_refl eq_refl eq_refl eq_refl)
    as (g' & diag & Hrun & Htr & _ & Hsilent).
  exists g'. split; [exact Hrun|].
  rewrite Htr, Hsilent; [reflexivity | discriminate | discriminate | reflexivity
                        | reflexivity | reflexivity].
Defined.
